(** * aesdchar: the AESD character driver (main.c)

    A shallow embedding of [aesd_read] and [aesd_write] over an explicit
    kernel heap, together with the ring log they store commands in, and the
    properties the driver's specification states about them. *)

From Stdlib Require Import ZArith Lia.
From Stdlib.Strings Require Import Byte.
From stdpp Require Import base numbers option list gmap.

Local Open Scope Z_scope.

(** ** Machine integers

    The driver is built for a 64-bit kernel: [size_t] is an unsigned and
    [ssize_t], [loff_t] a signed 64-bit integer.  Values live in [Z]; the two
    functions below are the conversions C applies when a result is stored. *)

Definition size_t (z : Z) : Z := z mod 2 ^ 64.

Definition ssize_t (z : Z) : Z :=
  let m := z mod 2 ^ 64 in if m <? 2 ^ 63 then m else m - 2 ^ 64.

Definition loff_t (z : Z) : Z := ssize_t z.

(** errno values of the kernel headers *)
Definition EINTR : Z := 4.
Definition ENOMEM : Z := 12.
Definition EFAULT : Z := 14.
Definition ERESTARTSYS : Z := 512.

(** The largest request [kmalloc] serves (4 MiB with 4 KiB pages). *)
Definition KMALLOC_MAX_SIZE : Z := 4194304.

(** The delimiter that ends a command, the newline character. *)
Definition newline : byte := x0a.

#[global] Instance byte_eq_decision : EqDecision byte := Byte.byte_eq_dec.

(** ** Device structures *)

(** A pointer is [None] for NULL and [Some a] for the block at address [a]. *)
Abbreviation ptr := (option positive).
Abbreviation heap := (gmap positive (list byte)).

(** Modelled from the spec: [struct aesd_buffer_entry] of
    aesd-circular-buffer.h, which is not part of the sources; main.c uses its
    fields [buffptr] and [size], an Entry of the spec's data model. *)
Record aesd_buffer_entry : Type := {
  buffptr : ptr;
  size : Z
}.

(** Modelled from the spec: the capacity C of the Ring Log, the constant
    AESDCHAR_MAX_WRITE_OPERATIONS_SUPPORTED of aesd-circular-buffer.h
    ("capacity C, default 10"). *)
Definition AESDCHAR_MAX_WRITE_OPERATIONS_SUPPORTED : nat := 10.

(** Modelled from the spec: [struct aesd_circular_buffer] of
    aesd-circular-buffer.h: "a fixed-capacity circular sequence of Entry
    slots, plus write_index (next slot to fill) and full flag"; main.c names
    them [entry], [in_offs] and [full].  [in_offs] is a uint8_t that stays
    below the capacity. *)
Record aesd_circular_buffer : Type := {
  entry : list aesd_buffer_entry;
  in_offs : nat;
  full : bool
}.

(** [struct aesd_dev] as main.c uses it (aesdchar.h is not part of the
    sources); [lock] is true while the mutex is held. *)
Record aesd_dev : Type := {
  circular_buffer : aesd_circular_buffer;
  partial_write_buffer : ptr;
  partial_write_size : Z;
  lock : bool
}.

(** Everything a call can see or change: the kernel heap of kmalloc'ed
    blocks, the caller's user-space buffers, the device, and the file
    position the caller passes by reference. *)
Record world : Type := {
  kmem : heap;
  umem : heap;
  dev : aesd_dev;
  f_pos : Z
}.

Definition set_kmem (h : heap) (w : world) : world :=
  {| kmem := h; umem := umem w; dev := dev w; f_pos := f_pos w |}.
Definition set_umem (h : heap) (w : world) : world :=
  {| kmem := kmem w; umem := h; dev := dev w; f_pos := f_pos w |}.
Definition set_dev (d : aesd_dev) (w : world) : world :=
  {| kmem := kmem w; umem := umem w; dev := d; f_pos := f_pos w |}.
Definition set_f_pos (p : Z) (w : world) : world :=
  {| kmem := kmem w; umem := umem w; dev := dev w; f_pos := p |}.

Definition set_lock (b : bool) (d : aesd_dev) : aesd_dev :=
  {| circular_buffer := circular_buffer d;
     partial_write_buffer := partial_write_buffer d;
     partial_write_size := partial_write_size d;
     lock := b |}.
Definition set_partial (p : ptr) (n : Z) (d : aesd_dev) : aesd_dev :=
  {| circular_buffer := circular_buffer d;
     partial_write_buffer := p;
     partial_write_size := n;
     lock := lock d |}.
Definition set_circular_buffer (b : aesd_circular_buffer) (d : aesd_dev) : aesd_dev :=
  {| circular_buffer := b;
     partial_write_buffer := partial_write_buffer d;
     partial_write_size := partial_write_size d;
     lock := lock d |}.

(** What the environment decides during one call: whether the wait for the
    mutex is cancelled by a signal, what the first and the second [kmalloc]
    of the call return (NULL, or the address of the new block), whether the
    user-space transfer faults, and how many bytes a transfer to the caller
    has stored at most when it fails. *)
Record kenv : Type := {
  lock_intr : bool;
  alloc1 : ptr;
  alloc2 : ptr;
  ufault : bool;
  ustored : nat
}.

(** ** Kernel code as state transformers with early return *)

Inductive outcome (A : Type) : Type :=
  | Next (a : A) (w : world)     (* control reaches the next statement *)
  | Return (r : Z) (w : world)   (* a return statement was executed *)
  | Fault.                       (* undefined behaviour, or stuck for ever *)
Arguments Next {A} a w.
Arguments Return {A} r w.
Arguments Fault {A}.

Definition kfun (A : Type) : Type := world → outcome A.

Definition ret {A} (a : A) : kfun A := λ w, Next a w.
Definition return_ {A} (r : Z) : kfun A := λ w, Return r w.
Definition fault {A} : kfun A := λ _, Fault.
Definition bind {A B} (m : kfun A) (f : A → kfun B) : kfun B :=
  λ w, match m w with
       | Next a w' => f a w'
       | Return r w' => Return r w'
       | Fault => Fault
       end.
Definition gets {A} (f : world → A) : kfun A := λ w, Next (f w) w.
Definition modify (f : world → world) : kfun unit := λ w, Next tt (f w).

Notation "x <- m ;; k" := (bind m (λ x, k))
  (at level 100, m at next level, right associativity).
Notation "m ;; k" := (bind m (λ _, k))
  (at level 100, right associativity).

(** A function body ends in a return statement on every path; a call yields
    the returned value and the world it leaves, or nothing if it faulted. *)
Definition call (body : kfun Empty_set) (w : world) : option (Z * world) :=
  match body w with
  | Return r w' => Some (r, w')
  | Next e _ => match e with end
  | Fault => None
  end.

(** ** Kernel primitives *)

(** [kmalloc(n, GFP_KERNEL)]: the environment answers NULL or an address, and
    a request above [KMALLOC_MAX_SIZE] is always answered NULL.  The block's
    initial contents are unspecified and modelled as zero bytes.  An
    allocator never hands out an address that is still allocated (see
    [kenv_ok] below); the model gives no meaning to such an answer. *)
Definition kmalloc (o : ptr) (n : Z) : kfun ptr :=
  λ w, match o with
       | None => Next None w
       | Some a =>
           if KMALLOC_MAX_SIZE <? n then Next None w
           else match kmem w !! a with
                | None => Next (Some a) (set_kmem (<[a := replicate (Z.to_nat n) x00]> (kmem w)) w)
                | Some _ => Fault
                end
       end.

(** [kfree(p)] of a block that is not allocated is a double free. *)
Definition kfree (a : positive) : kfun unit :=
  λ w, match kmem w !! a with
       | Some _ => Next tt (set_kmem (delete a (kmem w)) w)
       | None => Fault
       end.

(** Read [n] bytes at [p + off]; outside the block is undefined. *)
Definition load (p : positive) (off n : Z) : kfun (list byte) :=
  λ w, match kmem w !! p with
       | Some blk =>
           if decide (0 ≤ off ∧ 0 ≤ n ∧ off + n ≤ Z.of_nat (length blk))
           then Next (take (Z.to_nat n) (drop (Z.to_nat off) blk)) w
           else Fault
       | None => Fault
       end.

(** [blk] with the bytes from offset [off] on overwritten by [bs]. *)
Definition splice (off : nat) (bs blk : list byte) : list byte :=
  take off blk ++ bs ++ drop (off + length bs) blk.

(** Write [bs] at [p + off]; outside the block is undefined. *)
Definition store (p : positive) (off : Z) (bs : list byte) : kfun unit :=
  λ w, match kmem w !! p with
       | Some blk =>
           if decide (0 ≤ off ∧ off + Z.of_nat (length bs) ≤ Z.of_nat (length blk))
           then Next tt (set_kmem (<[p := splice (Z.to_nat off) bs blk]> (kmem w)) w)
           else Fault
       | None => Fault
       end.

(** [memcpy(dst + doff, src + soff, n)] *)
Definition memcpy (dst : positive) (doff : Z) (src : positive) (soff n : Z) : kfun unit :=
  bs <- load src soff n ;; store dst doff bs.

(** [memchr(p, c, n)]: the offset of the first [c] among the [n] bytes at
    [p], or NULL. *)
Definition memchr (p : positive) (c : byte) (n : Z) : kfun (option Z) :=
  bs <- load p 0 n ;;
  ret ((λ r, Z.of_nat (fst r)) <$> list_find (λ b, b = c) bs).

(** [copy_from_user(to, from, n)] returns the number of bytes it could not
    copy: none when all arrived, and otherwise, when the transfer faults or
    the user buffer is shorter than [n], all of them.  What a failing
    transfer has stored in the destination by then is left out: the
    destination is a kernel block that the one caller frees at once. *)
Definition copy_from_user (flt : bool) (to from : positive) (n : Z) : kfun Z :=
  λ w, match umem w !! from with
       | Some data =>
           if flt || (Z.of_nat (length data) <? n) then Next n w
           else (store to 0 (take (Z.to_nat n) data) ;; ret 0) w
       | None => Next n w
       end.

(** The number of bytes a failing transfer of [n] bytes to a caller's buffer
    that holds [old] has stored: at most [stored], what the environment
    allows, never beyond the buffer, and not all [n]. *)
Definition stored_prefix (stored : nat) (old : list byte) (n : Z) : nat :=
  Nat.min (Nat.min stored (length old)) (Z.to_nat (n - 1)).

(** [copy_to_user(to, from + off, n)] returns the number of bytes it could
    not copy, 0 when all arrived.  A transfer that faults, or runs beyond
    the caller's buffer, may have stored the first bytes before it fails; it
    returns how many are left, at least one. *)
Definition copy_to_user (flt : bool) (stored : nat) (to from : positive) (off n : Z)
    : kfun Z :=
  bs <- load from off n ;;
  λ w, match umem w !! to with
       | Some old =>
           if flt || (Z.of_nat (length old) <? n) then
             let k := stored_prefix stored old n in
             Next (n - Z.of_nat k)
                  (set_umem (<[to := take k bs ++ drop k old]> (umem w)) w)
           else Next 0 (set_umem (<[to := bs ++ drop (length bs) old]> (umem w)) w)
       | None => Next n w
       end.

(** [mutex_lock_interruptible(&dev->lock)]: -EINTR when a signal cancels the
    wait, 0 once the mutex is taken.  A caller that waits for a mutex nobody
    will release never proceeds. *)
Definition mutex_lock_interruptible (intr : bool) : kfun Z :=
  λ w, if intr then Next (- EINTR) w
       else if lock (dev w) then Fault
       else Next 0 (set_dev (set_lock true (dev w)) w).

Definition mutex_unlock : kfun unit :=
  λ w, if lock (dev w) then Next tt (set_dev (set_lock false (dev w)) w)
       else Fault.

(** ** The ring log (aesd-circular-buffer.c, not part of the sources) *)

(** Modelled from the spec: [aesd_circular_buffer_init], which is missing
    from the sources: the log starts empty, every slot zeroed (the module
    initialisation clears the whole device with memset). *)
Definition aesd_circular_buffer_init : aesd_circular_buffer :=
  {| entry := replicate AESDCHAR_MAX_WRITE_OPERATIONS_SUPPORTED
                {| buffptr := None; size := 0 |};
     in_offs := 0%nat;
     full := false |}.

(** Modelled from the spec: [aesd_circular_buffer_add_entry], which is
    missing from the sources: "overwriting that slot with the new Entry;
    advance write_index modulo C; set full = true once write_index wraps
    past the slot it started filling from (i.e., once C entries have been
    ingested since the log was last empty)".  The log is only empty at
    initialisation, so filling starts from slot 0.  Releasing the bytes of
    the overwritten Entry is done by the caller, [aesd_write]. *)
Definition aesd_circular_buffer_add_entry (add_entry : aesd_buffer_entry)
    (buffer : aesd_circular_buffer) : aesd_circular_buffer :=
  let next := ((in_offs buffer + 1) mod AESDCHAR_MAX_WRITE_OPERATIONS_SUPPORTED)%nat in
  {| entry := <[in_offs buffer := add_entry]> (entry buffer);
     in_offs := next;
     full := full buffer || bool_decide (next = 0%nat) |}.

(** Modelled from the spec: the slots of the live Entries "in
    oldest-to-newest order": all C slots starting at write_index once the
    log is full, the slots below write_index before that. *)
Definition live_slots (buffer : aesd_circular_buffer) : list nat :=
  if full buffer
  then (λ k, ((in_offs buffer + k) mod AESDCHAR_MAX_WRITE_OPERATIONS_SUPPORTED)%nat)
         <$> seq 0 AESDCHAR_MAX_WRITE_OPERATIONS_SUPPORTED
  else seq 0 (in_offs buffer).

(** Modelled from the spec: the walk of Resolve: "Walk entries in that order,
    accumulating sizes; the target entry is the first whose cumulative size
    exceeds globalOffset; offsetWithinEntry = globalOffset - (cumulative
    size before that entry)".  [acc] is the cumulative size before the
    slots still to visit. *)
Fixpoint find_entry_from (slots : list aesd_buffer_entry) (ids : list nat)
    (acc char_offset : Z) : option (nat * Z) :=
  match ids with
  | [] => None
  | i :: rest =>
      match slots !! i with
      | Some e =>
          if char_offset <? acc + size e then Some (i, char_offset - acc)
          else find_entry_from slots rest (acc + size e) char_offset
      | None => None
      end
  end.

(** Modelled from the spec: [aesd_circular_buffer_find_entry_offset_for_fpos],
    which is missing from the sources: Resolve of the Ring Log.  The result
    is the slot of the entry (the C function returns a pointer to it) and
    the offset within it (stored through [entry_offset_byte_rtn]); NULL when
    "globalOffset >= total logical length". *)
Definition aesd_circular_buffer_find_entry_offset_for_fpos
    (buffer : aesd_circular_buffer) (char_offset : Z) : option (nat * Z) :=
  find_entry_from (entry buffer) (live_slots buffer) 0 char_offset.

(** ** The driver's entry points (main.c) *)

(** The device as [aesd_init_module] leaves it (cdev registration apart). *)
Definition aesd_init_module : aesd_dev :=
  {| circular_buffer := aesd_circular_buffer_init;
     partial_write_buffer := None;
     partial_write_size := 0;
     lock := false |}.

Definition modify_dev (f : aesd_dev → aesd_dev) : kfun unit :=
  modify (λ w, set_dev (f (dev w)) w).

(** [aesd_read(filp, buf, count, f_pos)]; [filp->private_data] is the device
    [aesd_open] stored there, never NULL. *)
Definition aesd_read (env : kenv) (buf : ptr) (count : Z) : kfun Empty_set :=
  match buf with
  | None => return_ (- EFAULT)
  | Some ubuf =>
    rc <- mutex_lock_interruptible (lock_intr env) ;;
    if decide (rc ≠ 0) then return_ (- ERESTARTSYS) else
    pos <- gets f_pos ;;
    d <- gets dev ;;
    match aesd_circular_buffer_find_entry_offset_for_fpos
            (circular_buffer d) (size_t pos) with
    | None => mutex_unlock ;; return_ 0
    | Some (i, entry_offset_byte) =>
      match entry (circular_buffer d) !! i with
      | None => fault
      | Some e =>
        match buffptr e with
        | None => mutex_unlock ;; return_ 0
        | Some p =>
          let bytes_to_read := size_t (size e - entry_offset_byte) in
          let bytes_to_read := if count <? bytes_to_read then count else bytes_to_read in
          left <- copy_to_user (ufault env) (ustored env) ubuf p entry_offset_byte
                  bytes_to_read ;;
          if decide (left ≠ 0) then mutex_unlock ;; return_ (- EFAULT) else
          modify (λ w, set_f_pos (loff_t (f_pos w + bytes_to_read)) w) ;;
          let retval := ssize_t bytes_to_read in
          mutex_unlock ;;
          return_ retval
        end
      end
    end
  end.

(** [aesd_write(filp, buf, count, f_pos)] *)
Definition aesd_write (env : kenv) (buf : ptr) (count : Z) : kfun Empty_set :=
  match buf with
  | None => return_ (- EFAULT)
  | Some ubuf =>
    if decide (count = 0) then return_ 0 else
    rc <- mutex_lock_interruptible (lock_intr env) ;;
    if decide (rc ≠ 0) then return_ (- ERESTARTSYS) else
    write_buffer <- kmalloc (alloc1 env) count ;;
    match write_buffer with
    | None => mutex_unlock ;; return_ (- ENOMEM)
    | Some wb =>
      left <- copy_from_user (ufault env) wb ubuf count ;;
      if decide (left ≠ 0) then kfree wb ;; mutex_unlock ;; return_ (- EFAULT) else
      newline_pos <- memchr wb newline count ;;
      retval <-
        match newline_pos with
        | Some newline_offset =>
          d <- gets dev ;;
          let total_size := size_t (partial_write_size d + newline_offset + 1) in
          complete_buffer <- kmalloc (alloc2 env) total_size ;;
          match complete_buffer with
          | None => kfree wb ;; mutex_unlock ;; return_ (- ENOMEM)
          | Some cb =>
            match partial_write_buffer d with
            | Some pb =>
                if 0 <? partial_write_size d
                then memcpy cb 0 pb 0 (partial_write_size d) else ret tt
            | None => ret tt
            end ;;
            memcpy cb (partial_write_size d) wb 0 (size_t (newline_offset + 1)) ;;
            match partial_write_buffer d with
            | Some pb => kfree pb ;; modify_dev (set_partial None 0)
            | None => ret tt
            end ;;
            let new_entry := {| buffptr := Some cb; size := total_size |} in
            ring <- gets (λ w, circular_buffer (dev w)) ;;
            (if full ring then
               match entry ring !! in_offs ring with
               | Some old_entry =>
                   match buffptr old_entry with
                   | Some p => kfree p
                   | None => ret tt
                   end
               | None => fault
               end
             else ret tt) ;;
            modify_dev (λ d, set_circular_buffer
              (aesd_circular_buffer_add_entry new_entry (circular_buffer d)) d) ;;
            let retval := ssize_t (newline_offset + 1) in
            kfree wb ;;
            ret retval
          end
        | None =>
          d <- gets dev ;;
          let new_partial_size := size_t (partial_write_size d + count) in
          new_partial_buffer <- kmalloc (alloc2 env) new_partial_size ;;
          match new_partial_buffer with
          | None => kfree wb ;; mutex_unlock ;; return_ (- ENOMEM)
          | Some nb =>
            match partial_write_buffer d with
            | Some pb =>
                if 0 <? partial_write_size d
                then memcpy nb 0 pb 0 (partial_write_size d) ;; kfree pb
                else ret tt
            | None => ret tt
            end ;;
            memcpy nb (partial_write_size d) wb 0 count ;;
            modify_dev (set_partial (Some nb) new_partial_size) ;;
            let retval := ssize_t count in
            kfree wb ;;
            ret retval
          end
        end ;;
      mutex_unlock ;;
      return_ retval
    end
  end.

(** ** Well-formed worlds *)

(** The bytes of the pending (delimiter not yet seen) command. *)
Definition pending (w : world) : list byte :=
  match partial_write_buffer (dev w) with
  | Some a => default [] (kmem w !! a)
  | None => []
  end.

(** The bytes an entry owns. *)
Definition entry_bytes (h : heap) (e : aesd_buffer_entry) : list byte :=
  match buffptr e with
  | Some a => default [] (h !! a)
  | None => []
  end.

(** The live Entries, oldest first. *)
Definition live_entries (b : aesd_circular_buffer) : list aesd_buffer_entry :=
  omap (λ i, entry b !! i) (live_slots b).

(** [p] points to an allocated block of [n] bytes, [0 < n]. *)
Definition owns (h : heap) (p : ptr) (n : Z) : Prop :=
  ∃ a blk, p = Some a ∧ h !! a = Some blk ∧
           Z.of_nat (length blk) = n ∧ 0 < n ≤ KMALLOC_MAX_SIZE.

(** The invariant that holds between calls: the ring has its ten slots and
    [in_offs] is one of them; the mutex is free; the pending buffer is NULL
    with size 0 or owns a block of its recorded size; every live entry owns
    a block of its recorded size; no two of these blocks are the same; and
    the file position is a [loff_t]. *)
Record wf (w : world) : Prop := {
  wf_slots : length (entry (circular_buffer (dev w)))
             = AESDCHAR_MAX_WRITE_OPERATIONS_SUPPORTED;
  wf_in_offs : (in_offs (circular_buffer (dev w))
                < AESDCHAR_MAX_WRITE_OPERATIONS_SUPPORTED)%nat;
  wf_unlocked : lock (dev w) = false;
  wf_partial :
    (partial_write_buffer (dev w) = None ∧ partial_write_size (dev w) = 0)
    ∨ owns (kmem w) (partial_write_buffer (dev w)) (partial_write_size (dev w));
  wf_live : ∀ i e,
    i ∈ live_slots (circular_buffer (dev w)) →
    entry (circular_buffer (dev w)) !! i = Some e →
    owns (kmem w) (buffptr e) (size e);
  wf_sep : ∀ i j ei ej,
    i ∈ live_slots (circular_buffer (dev w)) →
    j ∈ live_slots (circular_buffer (dev w)) →
    entry (circular_buffer (dev w)) !! i = Some ei →
    entry (circular_buffer (dev w)) !! j = Some ej →
    buffptr ei = buffptr ej → i = j;
  wf_partial_sep : ∀ i e,
    i ∈ live_slots (circular_buffer (dev w)) →
    entry (circular_buffer (dev w)) !! i = Some e →
    is_Some (partial_write_buffer (dev w)) →
    buffptr e ≠ partial_write_buffer (dev w);
  wf_f_pos : - 2 ^ 63 ≤ f_pos w < 2 ^ 63
}.

(** [p] is NULL or an address at which nothing is allocated. *)
Definition unallocated (h : heap) (p : ptr) : Prop :=
  match p with Some a => h !! a = None | None => True end.

(** The allocator never hands out an address that is still allocated, and
    the two blocks of one call are distinct. *)
Definition kenv_ok (env : kenv) (w : world) : Prop :=
  unallocated (kmem w) (alloc1 env) ∧ unallocated (kmem w) (alloc2 env)
  ∧ (is_Some (alloc1 env) → alloc1 env ≠ alloc2 env).

(** [kfree] of a pointer that may be NULL, on the heap alone. *)
Definition release (p : ptr) (h : heap) : heap :=
  match p with Some a => delete a h | None => h end.

(** The slot an ingestion evicts: the one at [in_offs] once the log is full. *)
Definition evicted (b : aesd_circular_buffer) : option aesd_buffer_entry :=
  if full b then entry b !! in_offs b else None.

(** The bytes [aesd_write] accepts from a chunk: up to and including the
    first newline, or the whole chunk when it holds none. *)
Definition accepted (chunk : list byte) : nat :=
  match list_find (λ b, b = newline) chunk with
  | Some (d, _) => S d
  | None => length chunk
  end.

(** The total logical length of the live Entries. *)
Definition log_length (b : aesd_circular_buffer) : Z :=
  foldr (λ e n, size e + n) 0 (live_entries b).

(** The logical stream: the bytes of the live Entries, oldest first. *)
Definition log_stream (w : world) : list byte :=
  concat (entry_bytes (kmem w) <$> live_entries (circular_buffer (dev w))).

(** The worlds the driver can be in: the device starts as the module
    initialisation leaves it, with nothing allocated; between calls the
    caller may seek and change its own memory; each call of [aesd_read] or
    [aesd_write] passes a [count] that is a size_t. *)
Inductive reachable : world → Prop :=
  | reach_init u p :
      - 2 ^ 63 ≤ p < 2 ^ 63 →
      reachable {| kmem := ∅; umem := u; dev := aesd_init_module; f_pos := p |}
  | reach_caller w u p :
      reachable w → - 2 ^ 63 ≤ p < 2 ^ 63 →
      reachable (set_f_pos p (set_umem u w))
  | reach_read w env buf count r w' :
      reachable w → 0 ≤ count < 2 ^ 64 →
      call (aesd_read env buf count) w = Some (r, w') →
      reachable w'
  | reach_write w env buf count r w' :
      reachable w → kenv_ok env w → 0 ≤ count < 2 ^ 64 →
      call (aesd_write env buf count) w = Some (r, w') →
      reachable w'.

(** The world after a write of [chunk], whose first newline is at offset
    [d], completed a command in the block [a]: the command is the pending
    bytes followed by the chunk up to and including the newline. *)
Definition command_world (w : world) (a : positive) (chunk : list byte) (d : nat) : world :=
  set_dev
    {| circular_buffer :=
         aesd_circular_buffer_add_entry
           {| buffptr := Some a;
              size := partial_write_size (dev w) + Z.of_nat d + 1 |}
           (circular_buffer (dev w));
       partial_write_buffer := None;
       partial_write_size := 0;
       lock := false |}
    (set_kmem (<[a := pending w ++ take (S d) chunk]>
                 (release (evicted (circular_buffer (dev w)) ≫= buffptr)
                    (release (partial_write_buffer (dev w)) (kmem w)))) w).

(** The world after a write of [chunk], which holds no newline, grew the
    pending command into the block [a]. *)
Definition pending_world (w : world) (a : positive) (chunk : list byte) : world :=
  set_dev (set_partial (Some a)
             (partial_write_size (dev w) + Z.of_nat (length chunk)) (dev w))
    (set_kmem (<[a := pending w ++ chunk]>
                 (release (partial_write_buffer (dev w)) (kmem w))) w).

(** The world after a read delivered the [n] bytes at offset [o] of the
    block [blk] into the caller's buffer [ub], which held [old]. *)
Definition read_world (w : world) (ub : positive) (old blk : list byte) (o n : Z) : world :=
  set_f_pos (f_pos w + n)
    (set_umem (<[ub := take (Z.to_nat n) (drop (Z.to_nat o) blk)
                       ++ drop (Z.to_nat n) old]> (umem w)) w).

(** The environment lets a write of the [count] bytes at [ub] go through:
    the mutex is taken, the chunk arrives from the caller's buffer, which
    holds [data], and both allocations return a block, [a] for the grown
    buffer. *)
Definition write_granted (env : kenv) (w : world) (ub : positive)
    (data : list byte) (count : Z) (a : positive) : Prop :=
  lock_intr env = false ∧ ufault env = false
  ∧ umem w !! ub = Some data ∧ 0 < count ≤ Z.of_nat (length data)
  ∧ is_Some (alloc1 env) ∧ count ≤ KMALLOC_MAX_SIZE
  ∧ alloc2 env = Some a
  ∧ partial_write_size (dev w)
    + Z.of_nat (accepted (take (Z.to_nat count) data)) ≤ KMALLOC_MAX_SIZE.

(** ** A sample session

    A caller whose memory holds three chunks to write, at the addresses 1 to
    3, and a buffer of sixteen bytes to read into, at address 4. *)

Definition sample_umem : heap :=
  {[ 1%positive := ["h"; "e"; "l"; "l"; "o"]%byte;
     2%positive := [" "; "w"; "o"; "r"; "l"; "d"; x0a]%byte;
     3%positive := ["a"; "b"; "c"; x0a; "d"; "e"; "f"]%byte;
     4%positive := replicate 16 x00 ]}.

(** An environment in which nothing fails and [kmalloc] returns [a1], then
    [a2]. *)
Definition sample_env (a1 a2 : positive) : kenv :=
  {| lock_intr := false; alloc1 := Some a1; alloc2 := Some a2; ufault := false;
     ustored := 0 |}.

(** A signal cancels the wait for the mutex. *)
Definition interrupted_env : kenv :=
  {| lock_intr := true; alloc1 := None; alloc2 := None; ufault := false;
     ustored := 0 |}.

(** The second [kmalloc] of the call returns NULL. *)
Definition exhausted_env (a1 : positive) : kenv :=
  {| lock_intr := false; alloc1 := Some a1; alloc2 := None; ufault := false;
     ustored := 0 |}.

(** The world a write leaves. *)
Definition after_write (env : kenv) (ub : positive) (count : Z) (w : world) : world :=
  match call (aesd_write env (Some ub) count) w with
  | Some (_, w') => w'
  | None => w
  end.

(** The world a read leaves. *)
Definition after_read (env : kenv) (ub : positive) (count : Z) (w : world) : world :=
  match call (aesd_read env (Some ub) count) w with
  | Some (_, w') => w'
  | None => w
  end.

Definition sample_start : world :=
  {| kmem := ∅; umem := sample_umem; dev := aesd_init_module; f_pos := 0 |}.

(** "hello" is pending. *)
Definition sample_pending : world :=
  after_write (sample_env 10 11) 1 5 sample_start.

(** "hello world\n" is stored. *)
Definition sample_one : world :=
  after_write (sample_env 12 13) 2 7 sample_pending.

(** [n] more commands "abc\n" are stored. *)
Fixpoint sample_more (n : nat) (w : world) : world :=
  match n with
  | O => w
  | S n' =>
      after_write (sample_env (Pos.of_nat (100 + 2 * n)) (Pos.of_nat (101 + 2 * n)))
        3 7 (sample_more n' w)
  end.

(** The log is full: "hello world\n" and nine times "abc\n". *)
Definition sample_full : world := sample_more 9 sample_one.

(** ** Module shutdown (main.c) *)

(** [mutex_lock(&lock)]: the uninterruptible wait; a caller that waits for a
    mutex nobody will release never proceeds. *)
Definition mutex_lock : kfun unit :=
  λ w, if lock (dev w) then Fault
       else Next tt (set_dev (set_lock true (dev w)) w).

(** The loop of [aesd_cleanup_module] over the slots [visit]: the block of
    every visited entry whose [buffptr] is not NULL is freed. *)
Fixpoint free_slots (slots : list aesd_buffer_entry) (visit : list nat) : kfun unit :=
  match visit with
  | [] => ret tt
  | i :: rest =>
      (match slots !! i with
       | Some e =>
           match buffptr e with
           | Some p => kfree p
           | None => ret tt
           end
       | None => fault
       end) ;;
      free_slots slots rest
  end.

(** [aesd_cleanup_module()], the removal of the cdev and of the device
    number apart.  AESD_CIRCULAR_BUFFER_FOREACH is a macro of
    aesd-circular-buffer.h, which is not part of the sources: the slots it
    visits, in order, are the parameter [visit]. *)
Definition aesd_cleanup_module (visit : list nat) : kfun unit :=
  mutex_lock ;;
  d <- gets dev ;;
  match partial_write_buffer d with
  | Some pb => kfree pb ;; modify_dev (set_partial None 0)
  | None => ret tt
  end ;;
  ring <- gets (λ w, circular_buffer (dev w)) ;;
  free_slots (entry ring) visit ;;
  mutex_unlock.

(** The world a function without result leaves, or nothing if it faulted. *)
Definition call_void (body : kfun unit) (w : world) : option world :=
  match body w with
  | Next _ w' => Some w'
  | Return _ w' => Some w'
  | Fault => None
  end.

(** ** Further notions for stating properties *)

(** [bs] is one command: it ends with the newline and holds no other. *)
Definition command_bytes (bs : list byte) : Prop :=
  ∃ body, bs = body ++ [newline] ∧ newline ∉ body.

(** The pending bytes hold no newline and every live entry is one command. *)
Definition delimited (w : world) : Prop :=
  (newline ∉ pending w)
  ∧ (∀ e, e ∈ live_entries (circular_buffer (dev w)) →
          command_bytes (entry_bytes (kmem w) e)).

(** The block at [a] belongs to the pending buffer or to a live entry. *)
Definition owned (w : world) (a : positive) : Prop :=
  partial_write_buffer (dev w) = Some a
  ∨ ∃ i e, i ∈ live_slots (circular_buffer (dev w))
           ∧ entry (circular_buffer (dev w)) !! i = Some e
           ∧ buffptr e = Some a.

(** Nothing is allocated that the device does not own, and the slots that
    hold no live entry hold NULL. *)
Definition tidy (w : world) : Prop :=
  (∀ a, is_Some (kmem w !! a) → owned w a)
  ∧ ∀ i e, entry (circular_buffer (dev w)) !! i = Some e →
           i ∉ live_slots (circular_buffer (dev w)) → buffptr e = None.

(** The heap once the blocks of the entries in the slots [visit] are freed. *)
Definition freed_slots (slots : list aesd_buffer_entry) (visit : list nat)
    (h : heap) : heap :=
  foldl (λ h i, release (slots !! i ≫= buffptr) h) h visit.

(** "hello world\n" is stored and "hello" is pending. *)
Definition sample_both : world :=
  after_write (sample_env 30 31) 1 5 sample_one.

(** A caller that reads with the same buffer and [count] until a read
    returns nothing (or [fuel] reads were made), and gathers what it got. *)
Fixpoint read_all (fuel : nat) (env : kenv) (ub : positive) (count : Z)
    (w : world) : list byte :=
  match fuel with
  | O => []
  | S fuel' =>
      match call (aesd_read env (Some ub) count) w with
      | Some (r, w') =>
          if 0 <? r
          then take (Z.to_nat r) (default [] (umem w' !! ub))
               ++ read_all fuel' env ub count w'
          else []
      | None => []
      end
  end.

(** The first [kmalloc] of the call returns NULL. *)
Definition starved_env : kenv :=
  {| lock_intr := false; alloc1 := None; alloc2 := None; ufault := false;
     ustored := 0 |}.

(** The transfer from or to the caller's memory faults; a transfer to the
    caller has stored three bytes by then. *)
Definition faulting_env (a1 : positive) : kenv :=
  {| lock_intr := false; alloc1 := Some a1; alloc2 := None; ufault := true;
     ustored := 3 |}.

(** ** Machine arithmetic *)

Lemma size_t_small z : 0 ≤ z < 2 ^ 64 → size_t z = z.
Proof. intros H. unfold size_t. by apply Z.mod_small. Qed.

Lemma ssize_t_small z : 0 ≤ z < 2 ^ 63 → ssize_t z = z.
Proof.
  intros H. unfold ssize_t. rewrite Z.mod_small by lia.
  destruct (Z.ltb_spec z (2 ^ 63)); [done|lia].
Qed.

Lemma KMALLOC_MAX_SIZE_small : 0 < KMALLOC_MAX_SIZE < 2 ^ 32.
Proof. by compute. Qed.

(** ** Overwriting a block *)

Lemma length_splice off (bs blk : list byte) :
  (off + length bs ≤ length blk)%nat → length (splice off bs blk) = length blk.
Proof.
  intros H. unfold splice. rewrite !length_app, length_take, length_drop. lia.
Qed.

Lemma splice_fresh (a : list byte) n x :
  n = length a → splice 0 a (replicate n x) = a.
Proof.
  intros ->. unfold splice. rewrite take_0. cbn [Nat.add app].
  rewrite drop_replicate, Nat.sub_diag. apply app_nil_r.
Qed.

Lemma splice_append (a b : list byte) n k x :
  n = length a → k = (length a + length b)%nat →
  splice n b (splice 0 a (replicate k x)) = a ++ b.
Proof.
  intros -> ->. unfold splice. rewrite !take_0. cbn [Nat.add app].
  rewrite take_app_length, drop_app_ge, !drop_replicate by lia.
  replace (length a + length b - length a - (length a + length b - length a))%nat
    with 0%nat by lia.
  cbn [replicate]. by rewrite app_nil_r.

Qed.

Lemma fill_fresh (h : heap) a n (data : list byte) :
  (n ≤ length data)%nat →
  <[a := splice 0 (take n data) (replicate n x00)]> (<[a := replicate n x00]> h)
  = <[a := take n data]> h.
Proof.
  intros H. rewrite insert_insert_eq, splice_fresh; [done|].
  rewrite length_take. lia.
Qed.

(** ** Stepping through the primitives *)

Lemma bind_Next {A B} (m : kfun A) (f : A → kfun B) w a w' :
  m w = Next a w' → bind m f w = f a w'.
Proof. intros H. unfold bind. by rewrite H. Qed.

Lemma bind_bind {A B C} (m : kfun A) (f : A → kfun B) (g : B → kfun C) w :
  bind (bind m f) g w = bind m (λ a, bind (f a) g) w.
Proof. unfold bind. by destruct (m w). Qed.

Lemma mutex_lock_taken w :
  lock (dev w) = false →
  mutex_lock_interruptible false w = Next 0 (set_dev (set_lock true (dev w)) w).
Proof. intros H. unfold mutex_lock_interruptible. by rewrite H. Qed.

Lemma mutex_unlock_held w :
  lock (dev w) = true →
  mutex_unlock w = Next tt (set_dev (set_lock false (dev w)) w).
Proof. intros H. unfold mutex_unlock. by rewrite H. Qed.

Lemma kmalloc_block a n w :
  n ≤ KMALLOC_MAX_SIZE → kmem w !! a = None →
  kmalloc (Some a) n w
  = Next (Some a) (set_kmem (<[a := replicate (Z.to_nat n) x00]> (kmem w)) w).
Proof.
  intros Hn Ha. unfold kmalloc.
  destruct (Z.ltb_spec KMALLOC_MAX_SIZE n); [lia|]. by rewrite Ha.
Qed.

Lemma kmalloc_null o n w :
  o = None ∨ KMALLOC_MAX_SIZE < n → kmalloc o n w = Next None w.
Proof.
  intros H. unfold kmalloc. destruct o as [a|]; [|done].
  destruct H as [?|H]; [done|].
  destruct (Z.ltb_spec KMALLOC_MAX_SIZE n); [done|lia].
Qed.

Lemma kfree_block a blk w :
  kmem w !! a = Some blk →
  kfree a w = Next tt (set_kmem (delete a (kmem w)) w).
Proof. intros H. unfold kfree. by rewrite H. Qed.

Lemma load_block p off n blk w :
  kmem w !! p = Some blk →
  0 ≤ off → 0 ≤ n → off + n ≤ Z.of_nat (length blk) →
  load p off n w = Next (take (Z.to_nat n) (drop (Z.to_nat off) blk)) w.
Proof.
  intros H ? ? ?. unfold load. rewrite H.
  by rewrite decide_True by done.
Qed.

Lemma store_block p off bs blk w :
  kmem w !! p = Some blk →
  0 ≤ off → off + Z.of_nat (length bs) ≤ Z.of_nat (length blk) →
  store p off bs w
  = Next tt (set_kmem (<[p := splice (Z.to_nat off) bs blk]> (kmem w)) w).
Proof.
  intros H ? ?. unfold store. rewrite H.
  by rewrite decide_True by done.
Qed.

(** Copying the first [n] bytes of a block into another one. *)
Lemma memcpy_block dst doff src n dblk sblk w :
  kmem w !! dst = Some dblk → kmem w !! src = Some sblk →
  0 ≤ doff → 0 ≤ n →
  n ≤ Z.of_nat (length sblk) → doff + n ≤ Z.of_nat (length dblk) →
  memcpy dst doff src 0 n w
  = Next tt (set_kmem (<[dst := splice (Z.to_nat doff) (take (Z.to_nat n) sblk) dblk]>
                         (kmem w)) w).
Proof.
  intros Hd Hs ? ? ? ?. unfold memcpy.
  erewrite bind_Next by (eapply load_block; [done|lia..]).
  cbn [Z.to_nat drop].
  erewrite store_block; [done..|]. rewrite length_take. lia.
Qed.

Lemma memchr_block p c n blk w :
  kmem w !! p = Some blk → 0 ≤ n ≤ Z.of_nat (length blk) →
  memchr p c n w
  = Next ((λ r, Z.of_nat (fst r)) <$> list_find (λ b, b = c) (take (Z.to_nat n) blk)) w.
Proof.
  intros H ?. unfold memchr.
  erewrite bind_Next by (eapply load_block; [done|lia..]).
  done.
Qed.

Lemma copy_from_user_ok to from n data blk w :
  umem w !! from = Some data → kmem w !! to = Some blk →
  0 ≤ n → n ≤ Z.of_nat (length data) → n ≤ Z.of_nat (length blk) →
  copy_from_user false to from n w
  = Next 0 (set_kmem (<[to := splice 0 (take (Z.to_nat n) data) blk]> (kmem w)) w).
Proof.
  intros Hu Hk ? ? ?. unfold copy_from_user. rewrite Hu. cbn [orb].
  destruct (Z.ltb_spec (Z.of_nat (length data)) n); [lia|].
  erewrite bind_Next; [done|].
  erewrite store_block; [done..|]. rewrite length_take. lia.
Qed.

Lemma copy_from_user_fails flt to from n w :
  flt = true ∨ (∀ data, umem w !! from = Some data → Z.of_nat (length data) < n) →
  copy_from_user flt to from n w = Next n w.
Proof.
  intros H. unfold copy_from_user. destruct (umem w !! from) as [data|] eqn:Hu; [|done].
  destruct H as [->|H]; [done|].
  destruct (Z.ltb_spec (Z.of_nat (length data)) n) as [|Hge]; [by rewrite orb_true_r|].
  specialize (H _ eq_refl). lia.
Qed.

Lemma copy_to_user_ok stored to from off n blk old w :
  kmem w !! from = Some blk → umem w !! to = Some old →
  0 ≤ off → 0 ≤ n → off + n ≤ Z.of_nat (length blk) →
  n ≤ Z.of_nat (length old) →
  copy_to_user false stored to from off n w
  = Next 0 (set_umem (<[to := take (Z.to_nat n) (drop (Z.to_nat off) blk)
                              ++ drop (Z.to_nat n) old]> (umem w)) w).
Proof.
  intros Hk Hu ? ? ? ?. unfold copy_to_user.
  erewrite bind_Next by (by eapply load_block).
  rewrite Hu. cbn [orb].
  destruct (Z.ltb_spec (Z.of_nat (length old)) n); [lia|].
  rewrite length_take, length_drop. do 5 f_equal. lia.
Qed.

Lemma stored_prefix_bound stored old n :
  (0 < n → Z.of_nat (stored_prefix stored old n) < n)
  ∧ (n ≤ 0 → stored_prefix stored old n = 0%nat)
  ∧ (stored_prefix stored old n ≤ length old)%nat.
Proof. unfold stored_prefix. lia. Qed.

Lemma copy_to_user_fails flt stored to from off n blk old w :
  kmem w !! from = Some blk → umem w !! to = Some old →
  0 ≤ off → 0 ≤ n → off + n ≤ Z.of_nat (length blk) →
  flt = true ∨ Z.of_nat (length old) < n →
  copy_to_user flt stored to from off n w
  = Next (n - Z.of_nat (stored_prefix stored old n))
      (set_umem (<[to := take (stored_prefix stored old n)
                            (take (Z.to_nat n) (drop (Z.to_nat off) blk))
                          ++ drop (stored_prefix stored old n) old]> (umem w)) w).
Proof.
  intros Hk Hu ? ? ? H. unfold copy_to_user.
  erewrite bind_Next by (by eapply load_block).
  rewrite Hu. destruct H as [->|H]; [done|].
  destruct (Z.ltb_spec (Z.of_nat (length old)) n) as [|Hge]; [by rewrite orb_true_r|lia].
Qed.

Lemma copy_to_user_unmapped flt stored to from off n blk w :
  kmem w !! from = Some blk → umem w !! to = None →
  0 ≤ off → 0 ≤ n → off + n ≤ Z.of_nat (length blk) →
  copy_to_user flt stored to from off n w = Next n w.
Proof.
  intros Hk Hu ? ? ?. unfold copy_to_user.
  erewrite bind_Next by (by eapply load_block). by rewrite Hu.
Qed.

Lemma set_umem_id w : set_umem (umem w) w = w.
Proof. by destruct w. Qed.

(** Simplify projections out of updated worlds and devices. *)
Ltac wsimpl :=
  cbn [kmem umem dev f_pos set_kmem set_umem set_dev set_f_pos
       set_lock set_partial set_circular_buffer modify_dev modify gets ret return_
       circular_buffer partial_write_buffer partial_write_size lock
       entry in_offs full buffptr size] in *.

(** Expose the fields of updated worlds and devices. *)
Ltac wnorm :=
  unfold set_kmem, set_umem, set_dev, set_f_pos,
         set_lock, set_partial, set_circular_buffer;
  wsimpl.

(** Side conditions of a step: arithmetic, or a lookup in an updated heap. *)
Ltac heap_side :=
  first
    [ lia
    | done
    | repeat first [ rewrite lookup_insert_ne by congruence
                   | rewrite lookup_delete_ne by congruence ];
      first [ apply lookup_insert_eq | eassumption ]
    | rewrite ?length_splice
        by (rewrite ?length_app, ?length_take, ?length_drop, ?length_replicate; lia);
      rewrite ?length_app, ?length_take, ?length_drop, ?length_replicate; lia ].

(** Run the next statement with the lemma [lem] for its primitive. *)
Ltac kstep_with lem tac :=
  erewrite bind_Next by (eapply lem; wnorm; tac); cbn beta; wnorm.
Ltac kstep lem := kstep_with lem heap_side.
Ltac kpure := erewrite bind_Next by reflexivity; cbn beta; wnorm.

(** ** The paths of [aesd_write] that leave the world as it was *)

Lemma aesd_write_null env count w :
  call (aesd_write env None count) w = Some (- EFAULT, w).
Proof. done. Qed.

Lemma aesd_write_zero env ub w :
  call (aesd_write env (Some ub) 0) w = Some (0, w).
Proof. done. Qed.

Lemma aesd_write_interrupted env ub count w :
  count ≠ 0 → lock_intr env = true →
  call (aesd_write env (Some ub) count) w = Some (- ERESTARTSYS, w).
Proof.
  intros Hc Hi. unfold call, aesd_write. rewrite decide_False by done.
  rewrite Hi. by unfold bind.
Qed.

Lemma aesd_write_no_buffer env ub count w :
  lock (dev w) = false → count ≠ 0 → lock_intr env = false →
  alloc1 env = None ∨ KMALLOC_MAX_SIZE < count →
  call (aesd_write env (Some ub) count) w = Some (- ENOMEM, w).
Proof.
  intros Hl Hc Hi Ha. unfold call, aesd_write. rewrite decide_False by done.
  rewrite Hi. destruct w as [h u [cb pb ps lk] fp]. wsimpl. subst lk.
  kstep mutex_lock_taken. rewrite decide_False by (by intros []).
  kstep_with kmalloc_null ltac:(done). kstep mutex_unlock_held. done.
Qed.

Lemma aesd_write_transfer_fault env ub count a1 w :
  lock (dev w) = false → 0 < count ≤ KMALLOC_MAX_SIZE → lock_intr env = false →
  alloc1 env = Some a1 → kmem w !! a1 = None →
  ufault env = true
  ∨ (∀ data, umem w !! ub = Some data → Z.of_nat (length data) < count) →
  call (aesd_write env (Some ub) count) w = Some (- EFAULT, w).
Proof.
  intros Hl Hc Hi Ha Hf Hu. unfold call, aesd_write. rewrite decide_False by lia.
  rewrite Hi, Ha. destruct w as [h u [cb pb ps lk] fp]. wsimpl. subst lk.
  kstep mutex_lock_taken. rewrite decide_False by (by intros []).
  kstep kmalloc_block.
  kstep_with copy_from_user_fails ltac:(done). rewrite decide_True by lia.
  kstep kfree_block.
  kstep mutex_unlock_held.
  rewrite delete_insert_eq, delete_id by done. done.
Qed.

(** The statements from the start of [aesd_write] up to the newline search,
    when the mutex is taken and the chunk arrives in [write_buffer]. *)
Ltac write_prefix Hc Hi Ha1 Hu Hf :=
  unfold call, aesd_write; rewrite decide_False by lia;
  rewrite Hi, Ha1, Hf;
  kstep mutex_lock_taken; rewrite decide_False by (by intros []);
  kstep kmalloc_block;
  kstep_with copy_from_user_ok ltac:(first [ exact Hu | heap_side ]);
  rewrite fill_fresh by lia; rewrite decide_False by (by intros []);
  kstep memchr_block;
  rewrite take_take, Nat.min_id.

(** ** The paths of [aesd_write] that store the chunk *)

Lemma aesd_write_pending env ub data count a1 a2 w :
  wf w → umem w !! ub = Some data → 0 < count ≤ Z.of_nat (length data) →
  lock_intr env = false → ufault env = false →
  alloc1 env = Some a1 → alloc2 env = Some a2 →
  kmem w !! a1 = None → kmem w !! a2 = None → a1 ≠ a2 →
  list_find (λ b, b = newline) (take (Z.to_nat count) data) = None →
  partial_write_size (dev w) + count ≤ KMALLOC_MAX_SIZE →
  call (aesd_write env (Some ub) count) w
  = Some (count,
          set_dev (set_partial (Some a2) (partial_write_size (dev w) + count) (dev w))
            (set_kmem (<[a2 := pending w ++ take (Z.to_nat count) data]>
                         (release (partial_write_buffer (dev w)) (kmem w))) w)).
Proof.
  intros Hwf Hu Hc Hi Hf Ha1 Ha2 Hn1 Hn2 Hne Hfind Hsz.
  pose proof KMALLOC_MAX_SIZE_small as HK.
  destruct Hwf as [_ _ Hl Hp _ _ _ _]. unfold pending.
  destruct w as [h u [cb pb ps lk] fp]. wsimpl. subst lk.
  assert (0 ≤ ps) as Hps.
  { destruct Hp as [[_ ->]|(? & ? & _ & _ & _ & ?)]; lia. }
  write_prefix Hc Hi Ha1 Hu Hf.
  rewrite Hfind. cbn [fmap option_fmap option_map]. wsimpl.
  unfold bind at 1. wsimpl.
  kpure. rewrite Ha2, size_t_small by lia.
  kstep kmalloc_block.
  destruct pb as [pb|].
  - destruct Hp as [[? _]|(? & blk & [= <-] & Hpb & Hlen & Hpos)]; [done|].
    destruct (Z.ltb_spec 0 ps); [|lia].
    rewrite bind_bind. kstep memcpy_block. rewrite insert_insert_eq.
    kstep kfree_block. rewrite !delete_insert_ne by congruence.
    kstep memcpy_block. rewrite insert_insert_eq.
    kpure. kstep kfree_block.
    kstep mutex_unlock_held. cbn [release]. rewrite Hpb, ssize_t_small by lia.
    cbn [default]. rewrite delete_insert_ne, delete_insert_eq by congruence.
    rewrite (delete_id _ a1) by (by rewrite lookup_delete_ne by congruence).
    rewrite take_take, Nat.min_id, (take_ge blk) by lia.
    rewrite splice_append; [done|lia|]. rewrite length_take. lia.
  - destruct Hp as [[_ ->]|(? & ? & [=] & _)].
    kpure. kstep memcpy_block. rewrite insert_insert_eq.
    kpure. kstep kfree_block.
    kstep mutex_unlock_held. cbn [release]. rewrite ssize_t_small by lia.
    rewrite delete_insert_ne, delete_insert_eq, delete_id by congruence.
    rewrite take_take, Nat.min_id, Z.add_0_l, splice_fresh; [done|].
    rewrite length_take. lia.
Qed.

(** ** The ring log *)

Lemma elem_of_live_slots b i :
  (in_offs b < AESDCHAR_MAX_WRITE_OPERATIONS_SUPPORTED)%nat →
  i ∈ live_slots b
  ↔ (if full b then i < AESDCHAR_MAX_WRITE_OPERATIONS_SUPPORTED else i < in_offs b)%nat.
Proof.
  unfold live_slots, AESDCHAR_MAX_WRITE_OPERATIONS_SUPPORTED. intros Hio.
  destruct (full b).
  - rewrite list_elem_of_fmap. split.
    + intros (k & -> & _). apply Nat.mod_upper_bound. lia.
    + intros Hi. destruct (decide (in_offs b ≤ i)%nat).
      * exists (i - in_offs b)%nat. split; [|apply elem_of_seq; lia].
        replace (in_offs b + (i - in_offs b))%nat with i by lia.
        by rewrite Nat.mod_small.
      * exists (i + 10 - in_offs b)%nat. split; [|apply elem_of_seq; lia].
        replace (in_offs b + (i + 10 - in_offs b))%nat with (i + 1 * 10)%nat by lia.
        by rewrite Nat.Div0.mod_add, Nat.mod_small.
  - rewrite elem_of_seq. lia.
Qed.

Lemma live_slots_add_entry e b i :
  (in_offs b < AESDCHAR_MAX_WRITE_OPERATIONS_SUPPORTED)%nat →
  i ∈ live_slots (aesd_circular_buffer_add_entry e b)
  ↔ i = in_offs b ∨ i ∈ live_slots b.
Proof.
  intros Hio. rewrite !elem_of_live_slots; [|done|].
  2:{ cbn [aesd_circular_buffer_add_entry in_offs]. by apply Nat.mod_upper_bound. }
  cbn [aesd_circular_buffer_add_entry full in_offs].
  unfold AESDCHAR_MAX_WRITE_OPERATIONS_SUPPORTED in *.
  destruct (full b); cbn [orb]; [lia|].
  case_bool_decide as Hz.
  - assert (in_offs b = 9%nat) as ->; [|lia].
    destruct (decide (in_offs b = 9%nat)) as [|Hne]; [done|].
    rewrite Nat.mod_small in Hz; lia.
  - assert (in_offs b ≠ 9%nat) as Hne by (by intros Heq; rewrite Heq in Hz).
    rewrite Nat.mod_small by lia. lia.
Qed.

Lemma live_slots_lookup b i :
  length (entry b) = AESDCHAR_MAX_WRITE_OPERATIONS_SUPPORTED →
  (in_offs b < AESDCHAR_MAX_WRITE_OPERATIONS_SUPPORTED)%nat →
  i ∈ live_slots b → is_Some (entry b !! i).
Proof.
  intros Hlen Hio Hi. apply lookup_lt_is_Some. rewrite Hlen.
  apply elem_of_live_slots in Hi; [|done]. destruct (full b); lia.
Qed.

Lemma list_find_bound (chunk : list byte) d x :
  list_find (λ b, b = newline) chunk = Some (d, x) → (d < length chunk)%nat.
Proof. intros H. apply list_find_Some in H as (H & _). by eapply lookup_lt_Some. Qed.

Lemma aesd_write_command env ub data count a1 a2 d x w :
  wf w → umem w !! ub = Some data → 0 < count ≤ Z.of_nat (length data) →
  lock_intr env = false → ufault env = false →
  alloc1 env = Some a1 → alloc2 env = Some a2 →
  kmem w !! a1 = None → kmem w !! a2 = None → a1 ≠ a2 →
  list_find (λ b, b = newline) (take (Z.to_nat count) data) = Some (d, x) →
  count ≤ KMALLOC_MAX_SIZE →
  partial_write_size (dev w) + Z.of_nat d + 1 ≤ KMALLOC_MAX_SIZE →
  call (aesd_write env (Some ub) count) w
  = Some (Z.of_nat d + 1,
          set_dev
            {| circular_buffer :=
                 aesd_circular_buffer_add_entry
                   {| buffptr := Some a2;
                      size := partial_write_size (dev w) + Z.of_nat d + 1 |}
                   (circular_buffer (dev w));
               partial_write_buffer := None;
               partial_write_size := 0;
               lock := false |}
            (set_kmem (<[a2 := pending w ++ take (S d) data]>
                         (release (evicted (circular_buffer (dev w)) ≫= buffptr)
                            (release (partial_write_buffer (dev w)) (kmem w)))) w)).
Proof.
  intros Hwf Hu Hc Hi Hf Ha1 Ha2 Hn1 Hn2 Hne Hfind Hcm Hsz.
  pose proof KMALLOC_MAX_SIZE_small as HK.
  pose proof (list_find_bound _ _ _ Hfind) as Hd. rewrite length_take in Hd.
  destruct Hwf as [Hslots Hio Hl Hp Hlive _ Hpsep _]. unfold pending, evicted.
  destruct w as [h u [cb pb ps lk] fp]. wsimpl. subst lk.
  assert (0 ≤ ps) as Hps.
  { destruct Hp as [[_ ->]|(? & ? & _ & _ & _ & ?)]; lia. }
  assert (∀ p, full cb = true → entry cb !! in_offs cb = Some p →
            ∃ a blk, buffptr p = Some a ∧ h !! a = Some blk ∧ Some a ≠ pb) as Hold.
  { intros p Hfull Hp'.
    assert (in_offs cb ∈ live_slots cb) as Hin.
    { apply elem_of_live_slots; [done|]. by rewrite Hfull. }
    destruct (Hlive _ _ Hin Hp') as (a & blk & Ha & Hblk & _).
    exists a, blk. split_and!; [done..|].
    intros <-. by eapply (Hpsep _ _ Hin Hp'). }
  write_prefix Hc Hi Ha1 Hu Hf.
  rewrite Hfind. cbn [fmap option_fmap option_map fst]. wsimpl.
  unfold bind at 1. wsimpl.
  kpure. rewrite Ha2, !size_t_small by lia.
  kstep kmalloc_block.
  destruct pb as [pb|].
  - destruct Hp as [[? _]|(? & blk & [= <-] & Hpb & Hlen & Hpos)]; [done|].
    destruct (Z.ltb_spec 0 ps); [|lia].
    kstep memcpy_block. rewrite insert_insert_eq.
    kstep memcpy_block. rewrite insert_insert_eq.
    rewrite bind_bind. kstep kfree_block. rewrite !delete_insert_ne by congruence.
    kpure. kpure.
    replace (Z.to_nat (Z.of_nat d + 1)) with (S d) by lia.
    rewrite take_take, (Nat.min_l (S d)), (take_ge blk) by lia.
    rewrite splice_append by (rewrite ?length_take; lia).
    cbn [release]. rewrite Hpb. cbn [default id].
    destruct (full cb) eqn:Hfull.
    + destruct (lookup_lt_is_Some_2 (entry cb) (in_offs cb)) as [old Hlk]; [lia|].
      destruct (Hold _ eq_refl Hlk) as (p & pblk & Hbuf & Hpblk & Hnpb).
      rewrite Hlk. cbn [mbind option_bind]. rewrite Hbuf. cbn [release].
      kstep kfree_block. kpure. kstep kfree_block. kpure.
      rewrite ssize_t_small by lia.
      rewrite !delete_insert_ne, delete_insert_eq by congruence.
      rewrite (delete_id _ a1); [done|].
      by rewrite !lookup_delete_ne by congruence.
    + cbn [mbind option_bind release].
      kpure. kpure. kstep kfree_block. kpure.
      rewrite ssize_t_small by lia.
      rewrite !delete_insert_ne, delete_insert_eq by congruence.
      rewrite (delete_id _ a1); [done|].
      by rewrite !lookup_delete_ne by congruence.
  - destruct Hp as [[_ ->]|(? & ? & [=] & _)].
    kpure. kstep memcpy_block. rewrite insert_insert_eq.
    kpure. kpure.
    replace (Z.to_nat (0 + Z.of_nat d + 1)) with (S d) by lia.
    replace (Z.to_nat (Z.of_nat d + 1)) with (S d) by lia.
    rewrite take_take, (Nat.min_l (S d)) by lia.
    rewrite splice_fresh by (rewrite ?length_take; lia).
    cbn [release app].
    destruct (full cb) eqn:Hfull.
    + destruct (lookup_lt_is_Some_2 (entry cb) (in_offs cb)) as [old Hlk]; [lia|].
      destruct (Hold _ eq_refl Hlk) as (p & pblk & Hbuf & Hpblk & Hnpb).
      rewrite Hlk. cbn [mbind option_bind]. rewrite Hbuf. cbn [release].
      kstep kfree_block. kpure. kstep kfree_block. kpure.
      rewrite ssize_t_small by lia.
      rewrite !delete_insert_ne, delete_insert_eq by congruence.
      rewrite (delete_id _ a1); [done|].
      by rewrite !lookup_delete_ne by congruence.
    + cbn [mbind option_bind release].
      kpure. kpure. kstep kfree_block. kpure.
      rewrite ssize_t_small by lia.
      rewrite !delete_insert_ne, delete_insert_eq by congruence.
      rewrite (delete_id _ a1); done.
Qed.

Lemma aesd_write_no_grown_buffer env ub data count a1 w :
  wf w → umem w !! ub = Some data → 0 < count ≤ Z.of_nat (length data) →
  count ≤ KMALLOC_MAX_SIZE →
  lock_intr env = false → ufault env = false →
  alloc1 env = Some a1 → kmem w !! a1 = None →
  alloc2 env = None
  ∨ KMALLOC_MAX_SIZE
    < partial_write_size (dev w) + Z.of_nat (accepted (take (Z.to_nat count) data)) →
  call (aesd_write env (Some ub) count) w = Some (- ENOMEM, w).
Proof.
  intros Hwf Hu Hc Hcm Hi Hf Ha1 Hn1 Hfail.
  pose proof KMALLOC_MAX_SIZE_small as HK.
  destruct Hwf as [_ _ Hl Hp _ _ _ _]. unfold accepted in Hfail.
  destruct w as [h u [cb pb ps lk] fp]. wsimpl. subst lk.
  assert (0 ≤ ps ≤ KMALLOC_MAX_SIZE) as Hps.
  { destruct Hp as [[_ ->]|(? & ? & _ & _ & _ & ?)]; lia. }
  write_prefix Hc Hi Ha1 Hu Hf.
  destruct (list_find _ _) as [[d x]|] eqn:Hfind;
    cbn [fmap option_fmap option_map fst]; wsimpl;
    unfold bind at 1; wsimpl; kpure.
  - pose proof (list_find_bound _ _ _ Hfind) as Hd. rewrite length_take in Hd.
    rewrite size_t_small by lia.
    kstep_with kmalloc_null ltac:(destruct Hfail; [by left|right; lia]).
    kstep kfree_block. kpure.
    by rewrite delete_insert_eq, delete_id.
  - rewrite length_take in Hfail. rewrite size_t_small by lia.
    kstep_with kmalloc_null ltac:(destruct Hfail; [by left|right; lia]).
    kstep kfree_block. kpure.
    by rewrite delete_insert_eq, delete_id.
Qed.

(** ** The invariant is kept *)

Lemma length_pending w :
  wf w → Z.of_nat (length (pending w)) = partial_write_size (dev w).
Proof.
  intros Hwf. unfold pending.
  destruct (wf_partial _ Hwf) as [[-> ->]|(a & blk & -> & -> & ? & _)]; done.
Qed.

Lemma partial_write_size_bounds w :
  wf w → 0 ≤ partial_write_size (dev w) ≤ KMALLOC_MAX_SIZE.
Proof.
  intros Hwf. pose proof KMALLOC_MAX_SIZE_small.
  destruct (wf_partial _ Hwf) as [[_ ->]|(a & blk & _ & _ & _ & ?)]; lia.
Qed.

(** A block the log owns survives the release of the pending buffer and of
    the evicted entry, and the allocation of a new block. *)
Lemma owned_block_kept w i e a2 new :
  wf w → kmem w !! a2 = None →
  i ∈ live_slots (circular_buffer (dev w)) →
  entry (circular_buffer (dev w)) !! i = Some e →
  (full (circular_buffer (dev w)) = true → i ≠ in_offs (circular_buffer (dev w))) →
  ∃ a, buffptr e = Some a ∧ a ≠ a2 ∧
    <[a2 := new]> (release (evicted (circular_buffer (dev w)) ≫= buffptr)
                     (release (partial_write_buffer (dev w)) (kmem w))) !! a
    = kmem w !! a.
Proof.
  intros Hwf Hn2 Hi He Hio.
  destruct (wf_live _ Hwf _ _ Hi He) as (a & blk & Ha & Hblk & _).
  exists a. split; [done|]. split; [congruence|].
  rewrite lookup_insert_ne by congruence.
  assert (release (partial_write_buffer (dev w)) (kmem w) !! a = kmem w !! a) as Hrel.
  { destruct (partial_write_buffer (dev w)) as [pb|] eqn:Hpb; [|done].
    cbn [release]. apply lookup_delete_ne. intros ->.
    eapply (wf_partial_sep _ Hwf _ _ Hi He); [by rewrite Hpb|]. congruence. }
  unfold evicted. destruct (full _) eqn:Hfull; [|done].
  destruct (entry _ !! in_offs _) as [old|] eqn:Hold; [|done].
  cbn [mbind option_bind]. destruct (buffptr old) as [p|] eqn:Hp; [|done].
  cbn [release]. rewrite lookup_delete_ne; [done|]. intros ->.
  apply (Hio eq_refl). eapply (wf_sep _ Hwf); [done| |done..|congruence].
  apply elem_of_live_slots; [apply Hwf|]. rewrite Hfull. apply Hwf.
Qed.

Lemma wf_pending_grown w a2 chunk :
  wf w → kmem w !! a2 = None → chunk ≠ [] →
  partial_write_size (dev w) + Z.of_nat (length chunk) ≤ KMALLOC_MAX_SIZE →
  wf (set_dev (set_partial (Some a2)
                 (partial_write_size (dev w) + Z.of_nat (length chunk)) (dev w))
        (set_kmem (<[a2 := pending w ++ chunk]>
                     (release (partial_write_buffer (dev w)) (kmem w))) w)).
Proof.
  intros Hwf Hn2 Hne Hsz.
  pose proof (length_pending _ Hwf) as Hlen.
  pose proof (partial_write_size_bounds _ Hwf) as Hps.
  assert (0 < length chunk)%nat by (destruct chunk; [done|cbn; lia]).
  assert (∀ i e, i ∈ live_slots (circular_buffer (dev w)) →
            entry (circular_buffer (dev w)) !! i = Some e →
            ∃ a, buffptr e = Some a ∧ a ≠ a2 ∧
              <[a2 := pending w ++ chunk]>
                (release (partial_write_buffer (dev w)) (kmem w)) !! a
              = kmem w !! a) as Hkept.
  { intros i e Hi He.
    destruct (wf_live _ Hwf _ _ Hi He) as (a & blk & Ha & Hblk & _).
    exists a. split; [done|]. split; [congruence|].
    rewrite lookup_insert_ne by congruence.
    destruct (partial_write_buffer (dev w)) as [pb|] eqn:Hpb; [|done].
    cbn [release]. apply lookup_delete_ne. intros ->.
    eapply (wf_partial_sep _ Hwf _ _ Hi He); [by rewrite Hpb|]. congruence. }
  split; wnorm; try apply Hwf.
  - right. exists a2, (pending w ++ chunk).
    rewrite lookup_insert_eq, length_app. split_and!; [done..|lia|lia|lia].
  - intros i e Hi He.
    destruct (Hkept _ _ Hi He) as (a & Ha & _ & Hlk).
    destruct (wf_live _ Hwf _ _ Hi He) as (a' & blk & Ha' & Hblk & Hsize).
    exists a, blk. split; [done|]. split; [|done]. rewrite Hlk. congruence.
  - intros i e Hi He _ Heq.
    destruct (Hkept _ _ Hi He) as (a & Ha & Hne2 & _). congruence.
Qed.

Lemma wf_command_ingested w a2 cmd :
  wf w → kmem w !! a2 = None →
  0 < Z.of_nat (length cmd) ≤ KMALLOC_MAX_SIZE →
  wf (set_dev
        {| circular_buffer :=
             aesd_circular_buffer_add_entry
               {| buffptr := Some a2; size := Z.of_nat (length cmd) |}
               (circular_buffer (dev w));
           partial_write_buffer := None;
           partial_write_size := 0;
           lock := false |}
        (set_kmem (<[a2 := cmd]>
                     (release (evicted (circular_buffer (dev w)) ≫= buffptr)
                        (release (partial_write_buffer (dev w)) (kmem w)))) w)).
Proof.
  intros Hwf Hn2 Hsz.
  pose proof (wf_slots _ Hwf) as Hslots. pose proof (wf_in_offs _ Hwf) as Hio.
  set (b := circular_buffer (dev w)) in *.
  assert (∀ i e, i ∈ live_slots
                       (aesd_circular_buffer_add_entry
                          {| buffptr := Some a2; size := Z.of_nat (length cmd) |} b) →
            <[in_offs b := {| buffptr := Some a2; size := Z.of_nat (length cmd) |}]>
              (entry b) !! i = Some e →
            (i = in_offs b ∧ e = {| buffptr := Some a2; size := Z.of_nat (length cmd) |})
            ∨ (i ≠ in_offs b ∧ i ∈ live_slots b ∧ entry b !! i = Some e
               ∧ ∃ a, buffptr e = Some a ∧ a ≠ a2 ∧
                   <[a2 := cmd]> (release (evicted b ≫= buffptr)
                     (release (partial_write_buffer (dev w)) (kmem w))) !! a
                   = kmem w !! a)) as Hcases.
  { intros i e Hi He. destruct (decide (i = in_offs b)) as [->|Hne].
    - left. rewrite list_lookup_insert_eq in He by lia. by injection He as <-.
    - right. rewrite list_lookup_insert_ne in He by done.
      apply live_slots_add_entry in Hi as [?|Hi]; [done| |done].
      split_and!; [done..|]. by eapply owned_block_kept. }
  split; wnorm; fold b; cbn [aesd_circular_buffer_add_entry entry in_offs].
  - by rewrite length_insert.
  - by apply Nat.mod_upper_bound.
  - done.
  - by left.
  - intros i e Hi He. destruct (Hcases _ _ Hi He) as [[-> ->]|(_ & Hi' & He' & a & Ha & _ & Hlk)].
    + exists a2, cmd. by rewrite lookup_insert_eq.
    + destruct (wf_live _ Hwf _ _ Hi' He') as (a' & blk & Ha' & Hblk & Hsize).
      exists a, blk. split; [done|]. split; [|done]. rewrite Hlk. congruence.
  - intros i j ei ej Hi Hj Hei Hej Heq.
    destruct (Hcases _ _ Hi Hei) as [[-> ->]|(_ & Hi' & Hei' & ai & Hai & Hnei & _)];
      destruct (Hcases _ _ Hj Hej) as [[-> ->]|(_ & Hj' & Hej' & aj & Haj & Hnej & _)];
      [done|cbn in Heq; congruence|cbn in Heq; congruence|].
    by eapply (wf_sep _ Hwf).
  - by intros i e _ _ [? [=]].
  - apply Hwf.
Qed.

(** ** Every call of [aesd_write] returns, in one of three ways *)

Lemma aesd_write_cases env buf count w :
  wf w → kenv_ok env w → 0 ≤ count < 2 ^ 64 →
  ∃ r w', call (aesd_write env buf count) w = Some (r, w') ∧
    ((r ≤ 0 ∧ w' = w)
     ∨ ∃ ub data a,
         buf = Some ub ∧ umem w !! ub = Some data ∧ 0 < count ≤ Z.of_nat (length data)
         ∧ lock_intr env = false ∧ ufault env = false
         ∧ is_Some (alloc1 env) ∧ alloc2 env = Some a ∧ kmem w !! a = None
         ∧ match list_find (λ b, b = newline) (take (Z.to_nat count) data) with
           | Some (d, _) =>
               r = Z.of_nat d + 1
               ∧ w' = command_world w a (take (Z.to_nat count) data) d
               ∧ partial_write_size (dev w) + Z.of_nat d + 1 ≤ KMALLOC_MAX_SIZE
           | None =>
               r = count
               ∧ w' = pending_world w a (take (Z.to_nat count) data)
               ∧ partial_write_size (dev w) + count ≤ KMALLOC_MAX_SIZE
           end).
Proof.
  intros Hwf (Hf1 & Hf2 & Hdist) Hc.
  pose proof KMALLOC_MAX_SIZE_small as HK.
  pose proof (wf_unlocked _ Hwf) as Hl.
  pose proof (partial_write_size_bounds _ Hwf) as Hps.
  assert (0 < EFAULT ∧ 0 < ENOMEM ∧ 0 < ERESTARTSYS) as (? & ? & ?) by done.
  destruct buf as [ub|]; [|exists (- EFAULT), w; split; [done|left; split; [lia|done]]].
  destruct (decide (count = 0)) as [->|Hc0];
    [exists 0, w; split; [done|left; split; [lia|done]]|].
  destruct (lock_intr env) eqn:Hi.
  { exists (- ERESTARTSYS), w. split; [by apply aesd_write_interrupted|].
    left. split; [lia|done]. }
  destruct (alloc1 env) as [a1|] eqn:Ha1; cycle 1.
  { exists (- ENOMEM), w. split; [apply aesd_write_no_buffer; auto|].
    left. split; [lia|done]. }
  destruct (decide (count ≤ KMALLOC_MAX_SIZE)) as [Hcm|Hcm]; cycle 1.
  { exists (- ENOMEM), w. split; [apply aesd_write_no_buffer; auto; right; lia|].
    left. split; [lia|done]. }
  cbn [unallocated] in Hf1.
  destruct (umem w !! ub) as [data|] eqn:Hu; cycle 1.
  { exists (- EFAULT), w. split.
    - eapply aesd_write_transfer_fault; eauto; [lia|]. right. by rewrite Hu.
    - left. split; [lia|done]. }
  destruct (decide (count ≤ Z.of_nat (length data))) as [Hlen|Hlen]; cycle 1.
  { exists (- EFAULT), w. split.
    - eapply aesd_write_transfer_fault; eauto; [lia|].
      right. rewrite Hu. intros ? [= <-]. lia.
    - left. split; [lia|done]. }
  destruct (ufault env) eqn:Hf.
  { exists (- EFAULT), w. split.
    - eapply aesd_write_transfer_fault; eauto. lia.
    - left. split; [lia|done]. }
  destruct (alloc2 env) as [a2|] eqn:Ha2; cycle 1.
  { exists (- ENOMEM), w. split.
    - eapply aesd_write_no_grown_buffer; eauto. lia.
    - left. split; [lia|done]. }
  destruct (decide (partial_write_size (dev w)
                    + Z.of_nat (accepted (take (Z.to_nat count) data))
                    ≤ KMALLOC_MAX_SIZE)) as [Hsz|Hsz]; cycle 1.
  { exists (- ENOMEM), w. split.
    - eapply aesd_write_no_grown_buffer; eauto; [lia|]. right. lia.
    - left. split; [lia|done]. }
  cbn [unallocated] in Hf2.
  assert (a1 ≠ a2) as Hne by (intros ->; by apply Hdist).
  unfold accepted in Hsz.
  destruct (list_find _ _) as [[d x]|] eqn:Hfind.
  - exists (Z.of_nat d + 1), (command_world w a2 (take (Z.to_nat count) data) d).
    split.
    + unfold command_world.
      pose proof (list_find_bound _ _ _ Hfind) as Hd. rewrite length_take in Hd.
      rewrite take_take, (Nat.min_l (S d)) by lia.
      eapply aesd_write_command; eauto; lia.
    + right. exists ub, data, a2. rewrite Hfind.
      split_and!; [done|done|lia|done..|lia].
  - rewrite length_take in Hsz.
    exists count, (pending_world w a2 (take (Z.to_nat count) data)).
    split.
    + unfold pending_world. rewrite length_take.
      replace (Z.of_nat (Z.to_nat count `min` length data)) with count by lia.
      eapply aesd_write_pending; eauto; lia.
    + right. exists ub, data, a2. rewrite Hfind.
      split_and!; [done|done|lia|done..|lia].
Qed.

Lemma wf_command_world w a chunk d :
  wf w → kmem w !! a = None → (d < length chunk)%nat →
  partial_write_size (dev w) + Z.of_nat d + 1 ≤ KMALLOC_MAX_SIZE →
  wf (command_world w a chunk d).
Proof.
  intros Hwf Hn Hd Hsz. unfold command_world.
  pose proof (length_pending _ Hwf) as Hlen.
  pose proof (partial_write_size_bounds _ Hwf) as Hps.
  assert (Z.of_nat (length (pending w ++ take (S d) chunk))
          = partial_write_size (dev w) + Z.of_nat d + 1) as Hcmd.
  { rewrite length_app, length_take. lia. }
  rewrite <- Hcmd. apply wf_command_ingested; [done..|lia].
Qed.

Lemma wf_pending_world w a chunk :
  wf w → kmem w !! a = None → chunk ≠ [] →
  partial_write_size (dev w) + Z.of_nat (length chunk) ≤ KMALLOC_MAX_SIZE →
  wf (pending_world w a chunk).
Proof. apply wf_pending_grown. Qed.

Lemma aesd_write_wf env buf count w r w' :
  wf w → kenv_ok env w → 0 ≤ count < 2 ^ 64 →
  call (aesd_write env buf count) w = Some (r, w') → wf w'.
Proof.
  intros Hwf Hok Hc Hcall.
  destruct (aesd_write_cases env buf count w Hwf Hok Hc) as (r0 & w0 & Hcall0 & Hcases).
  rewrite Hcall in Hcall0. injection Hcall0 as <- <-.
  destruct Hcases as [[_ ->]|(ub & data & a & _ & _ & Hlen & _ & _ & _ & _ & Hn & Hres)];
    [done|].
  destruct (list_find _ _) as [[d x]|] eqn:Hfind.
  - destruct Hres as (_ & -> & Hsz). apply wf_command_world; [done..| |done].
    by eapply list_find_bound.
  - destruct Hres as (_ & -> & Hsz). apply wf_pending_world; [done..| |].
    + intros Hnil. apply (f_equal length) in Hnil. rewrite length_take in Hnil.
      cbn in Hnil. lia.
    + rewrite length_take. lia.
Qed.

(** ** Resolving a file position *)

Lemma find_entry_from_Some slots ids acc char_offset i o :
  (∀ j e, j ∈ ids → slots !! j = Some e → 0 ≤ size e) →
  acc ≤ char_offset →
  find_entry_from slots ids acc char_offset = Some (i, o) →
  i ∈ ids ∧ ∃ e, slots !! i = Some e ∧ 0 ≤ o < size e.
Proof.
  revert acc. induction ids as [|j ids IH]; intros acc Hpos Hacc Hfind; [done|].
  cbn [find_entry_from] in Hfind.
  destruct (slots !! j) as [e|] eqn:He; [|done].
  destruct (Z.ltb_spec char_offset (acc + size e)).
  - injection Hfind as <- <-. split; [left|]. exists e. split; [done|lia].
  - destruct (IH (acc + size e)) as (Hi & Hres); [|lia|done|].
    + intros j' e' Hj'. apply Hpos. by right.
    + split; [by right|done].
Qed.

Lemma sum_sizes_nonneg (slots : list aesd_buffer_entry) ids :
  (∀ j e, j ∈ ids → slots !! j = Some e → 0 ≤ size e) →
  0 ≤ foldr (λ e n, size e + n) 0 (omap (λ i, slots !! i) ids).
Proof.
  induction ids as [|j ids IH]; intros Hpos; [done|].
  cbn [omap list_omap].
  assert (0 ≤ foldr (λ e n, size e + n) 0 (omap (λ i, slots !! i) ids)) as Hrest.
  { apply IH. intros j' e' Hj'. apply Hpos. by right. }
  destruct (slots !! j) as [e|] eqn:He; [|done].
  cbn [foldr]. pose proof (Hpos j e ltac:(left) He). lia.
Qed.

Lemma find_entry_from_None slots ids acc char_offset :
  (∀ j, j ∈ ids → is_Some (slots !! j)) →
  (∀ j e, j ∈ ids → slots !! j = Some e → 0 ≤ size e) →
  acc ≤ char_offset →
  find_entry_from slots ids acc char_offset = None
  ↔ acc + foldr (λ e n, size e + n) 0 (omap (λ i, slots !! i) ids) ≤ char_offset.
Proof.
  revert acc. induction ids as [|j ids IH]; intros acc Hall Hpos Hacc.
  - cbn. split; [lia|done].
  - destruct (Hall j) as [e He]; [left|].
    assert (∀ j' e', j' ∈ ids → slots !! j' = Some e' → 0 ≤ size e') as Hpos'.
    { intros j' e' Hj'. apply Hpos. by right. }
    pose proof (sum_sizes_nonneg slots ids Hpos') as Hrest.
    cbn [find_entry_from omap list_omap]. rewrite He. cbn [foldr].
    destruct (Z.ltb_spec char_offset (acc + size e)).
    + split; [done|lia].
    + rewrite IH; [lia| |done|lia]. intros j' Hj'. apply Hall. by right.
Qed.

Lemma live_sizes_nonneg w j e :
  wf w → j ∈ live_slots (circular_buffer (dev w)) →
  entry (circular_buffer (dev w)) !! j = Some e → 0 ≤ size e.
Proof.
  intros Hwf Hj He.
  destruct (wf_live _ Hwf _ _ Hj He) as (? & ? & _ & _ & _ & ?). lia.
Qed.

Lemma log_length_nonneg w : wf w → 0 ≤ log_length (circular_buffer (dev w)).
Proof.
  intros Hwf. apply sum_sizes_nonneg. intros j e. by apply live_sizes_nonneg.
Qed.

(** Resolution fails exactly at and past the total logical length. *)
Lemma find_entry_None w char_offset :
  wf w → 0 ≤ char_offset →
  aesd_circular_buffer_find_entry_offset_for_fpos (circular_buffer (dev w)) char_offset
  = None
  ↔ log_length (circular_buffer (dev w)) ≤ char_offset.
Proof.
  intros Hwf Hoff.
  unfold aesd_circular_buffer_find_entry_offset_for_fpos, log_length, live_entries.
  rewrite find_entry_from_None; [done| | |done].
  - intros j Hj. apply live_slots_lookup; [apply Hwf..|done].
  - intros j e. by apply live_sizes_nonneg.
Qed.

(** A resolved position lies inside a live entry, which owns its bytes. *)
Lemma find_entry_Some w char_offset i o :
  wf w → 0 ≤ char_offset →
  aesd_circular_buffer_find_entry_offset_for_fpos (circular_buffer (dev w)) char_offset
  = Some (i, o) →
  i ∈ live_slots (circular_buffer (dev w))
  ∧ ∃ e a blk, entry (circular_buffer (dev w)) !! i = Some e ∧ 0 ≤ o < size e
      ∧ buffptr e = Some a ∧ kmem w !! a = Some blk
      ∧ Z.of_nat (length blk) = size e ∧ size e ≤ KMALLOC_MAX_SIZE.
Proof.
  intros Hwf Hoff Hfind.
  apply find_entry_from_Some in Hfind as (Hi & e & He & Ho); [|intros j e Hj He|done].
  - split; [done|].
    destruct (wf_live _ Hwf _ _ Hi He) as (a & blk & ? & ? & ? & ?).
    exists e, a, blk. split_and!; try done; lia.
  - by eapply live_sizes_nonneg.
Qed.

Lemma sum_sizes_bound (slots : list aesd_buffer_entry) ids m :
  0 ≤ m → (∀ j e, j ∈ ids → slots !! j = Some e → size e ≤ m) →
  foldr (λ e n, size e + n) 0 (omap (λ i, slots !! i) ids)
  ≤ Z.of_nat (length ids) * m.
Proof.
  intros Hm. induction ids as [|j ids IH]; intros Hmax; [done|].
  assert (foldr (λ e n, size e + n) 0 (omap (λ i, slots !! i) ids)
          ≤ Z.of_nat (length ids) * m) as Hrest.
  { apply IH. intros j' e' Hj'. apply Hmax. by right. }
  cbn [omap list_omap length]. destruct (slots !! j) as [e|] eqn:He; [|lia].
  cbn [foldr]. pose proof (Hmax j e ltac:(left) He). lia.
Qed.

Lemma log_length_bound w :
  wf w → log_length (circular_buffer (dev w)) ≤ 10 * KMALLOC_MAX_SIZE.
Proof.
  intros Hwf. unfold log_length, live_entries.
  pose proof KMALLOC_MAX_SIZE_small as HK.
  assert (length (live_slots (circular_buffer (dev w))) ≤ 10)%nat as Hlen.
  { unfold live_slots. pose proof (wf_in_offs _ Hwf) as Hio.
    unfold AESDCHAR_MAX_WRITE_OPERATIONS_SUPPORTED in *.
    destruct (full _); rewrite ?length_fmap, length_seq; lia. }
  etrans; [apply (sum_sizes_bound _ _ KMALLOC_MAX_SIZE); [lia|]|nia].
  intros j e Hj He. destruct (wf_live _ Hwf _ _ Hj He) as (? & ? & _ & _ & _ & ?). lia.
Qed.

(** A file position that resolves is a position inside the log. *)
Lemma resolved_f_pos w i o :
  wf w →
  aesd_circular_buffer_find_entry_offset_for_fpos
    (circular_buffer (dev w)) (size_t (f_pos w)) = Some (i, o) →
  size_t (f_pos w) = f_pos w ∧ 0 ≤ f_pos w < log_length (circular_buffer (dev w)).
Proof.
  intros Hwf Hfind.
  pose proof (wf_f_pos _ Hwf) as Hpos. pose proof (log_length_bound _ Hwf) as Hb.
  pose proof KMALLOC_MAX_SIZE_small as HK.
  assert (0 ≤ size_t (f_pos w) < 2 ^ 64) as Hs by (by apply Z.mod_pos_bound).
  assert (size_t (f_pos w) < log_length (circular_buffer (dev w))) as Hlt.
  { destruct (decide (log_length (circular_buffer (dev w)) ≤ size_t (f_pos w))) as [Hle|]; [|lia].
    apply find_entry_None in Hle; [congruence|done|lia]. }
  assert (0 ≤ f_pos w) as Hnn.
  { destruct (decide (0 ≤ f_pos w)) as [|Hneg]; [done|].
    unfold size_t in Hlt, Hs.
    rewrite <- (Z.mod_add _ 1) in Hlt by done.
    rewrite Z.mod_small in Hlt by lia. lia. }
  rewrite size_t_small in * by lia. lia.
Qed.

(** ** The paths of [aesd_read] *)

Lemma aesd_read_null env count w :
  call (aesd_read env None count) w = Some (- EFAULT, w).
Proof. done. Qed.

Lemma aesd_read_interrupted env ub count w :
  lock_intr env = true →
  call (aesd_read env (Some ub) count) w = Some (- ERESTARTSYS, w).
Proof. intros Hi. unfold call, aesd_read. rewrite Hi. by unfold bind. Qed.

Lemma aesd_read_eof env ub count w :
  lock (dev w) = false → lock_intr env = false →
  aesd_circular_buffer_find_entry_offset_for_fpos
    (circular_buffer (dev w)) (size_t (f_pos w)) = None →
  call (aesd_read env (Some ub) count) w = Some (0, w).
Proof.
  intros Hl Hi Hfind. unfold call, aesd_read. rewrite Hi.
  destruct w as [h u [cb pb ps lk] fp]. wsimpl. subst lk.
  kstep mutex_lock_taken. rewrite decide_False by (by intros []).
  kpure. kpure. by rewrite Hfind.
Qed.

Lemma aesd_read_entry env ub count old i o e a blk w :
  wf w → lock_intr env = false → ufault env = false → 0 ≤ count →
  aesd_circular_buffer_find_entry_offset_for_fpos
    (circular_buffer (dev w)) (size_t (f_pos w)) = Some (i, o) →
  entry (circular_buffer (dev w)) !! i = Some e →
  buffptr e = Some a → kmem w !! a = Some blk →
  umem w !! ub = Some old →
  Z.min count (size e - o) ≤ Z.of_nat (length old) →
  call (aesd_read env (Some ub) count) w
  = Some (Z.min count (size e - o),
          set_f_pos (f_pos w + Z.min count (size e - o))
            (set_umem (<[ub := take (Z.to_nat (Z.min count (size e - o)))
                                 (drop (Z.to_nat o) blk)
                               ++ drop (Z.to_nat (Z.min count (size e - o))) old]>
                         (umem w)) w)).
Proof.
  intros Hwf Hi Hf Hc Hfind He Ha Hblk Hu Hroom.
  pose proof KMALLOC_MAX_SIZE_small as HK.
  destruct (resolved_f_pos _ _ _ Hwf Hfind) as (Hsz & Hpos).
  pose proof (log_length_bound _ Hwf) as Hb.
  rewrite Hsz in Hfind.
  destruct (find_entry_Some _ _ _ _ Hwf (proj1 Hpos) Hfind)
    as (_ & e' & a' & blk' & He' & Ho & Ha' & Hblk' & Hlen & Hmax).
  assert (e' = e) as -> by congruence. assert (a' = a) as -> by congruence.
  assert (blk' = blk) as -> by congruence.
  pose proof (wf_unlocked _ Hwf) as Hl. clear Hwf.
  unfold call, aesd_read. rewrite Hi, Hf.
  destruct w as [h u [cb pb ps lk] fp]. wsimpl. subst lk.
  kstep mutex_lock_taken. rewrite decide_False by (by intros []).
  kpure. kpure. rewrite Hsz, Hfind, He, Ha. rewrite size_t_small by lia.
  assert ((if count <? size e - o then count else size e - o)
          = Z.min count (size e - o)) as ->.
  { destruct (Z.ltb_spec count (size e - o)); lia. }
  kstep_with copy_to_user_ok ltac:(first [exact Hblk | exact Hu | lia]).
  rewrite decide_False by (by intros []).
  kpure. kpure. unfold loff_t. by rewrite !ssize_t_small by lia.
Qed.

Lemma aesd_read_transfer_fault env ub count i o e a blk w :
  wf w → lock_intr env = false → 0 ≤ count →
  aesd_circular_buffer_find_entry_offset_for_fpos
    (circular_buffer (dev w)) (size_t (f_pos w)) = Some (i, o) →
  entry (circular_buffer (dev w)) !! i = Some e →
  buffptr e = Some a → kmem w !! a = Some blk →
  Z.min count (size e - o) ≠ 0 →
  ufault env = true
  ∨ (∀ old, umem w !! ub = Some old →
       Z.of_nat (length old) < Z.min count (size e - o)) →
  ∃ u, call (aesd_read env (Some ub) count) w = Some (- EFAULT, set_umem u w).
Proof.
  intros Hwf Hi Hc Hfind He Ha Hblk Hnz Hfail.
  pose proof KMALLOC_MAX_SIZE_small as HK.
  destruct (resolved_f_pos _ _ _ Hwf Hfind) as (Hsz & Hpos).
  rewrite Hsz in Hfind.
  destruct (find_entry_Some _ _ _ _ Hwf (proj1 Hpos) Hfind)
    as (_ & e' & a' & blk' & He' & Ho & Ha' & Hblk' & Hlen & Hmax).
  assert (e' = e) as -> by congruence. assert (a' = a) as -> by congruence.
  assert (blk' = blk) as -> by congruence.
  pose proof (wf_unlocked _ Hwf) as Hl. clear Hwf.
  set (n := Z.min count (size e - o)) in *.
  assert ((if count <? size e - o then count else size e - o) = n) as Hmin.
  { unfold n. destruct (Z.ltb_spec count (size e - o)); lia. }
  destruct (umem w !! ub) as [old|] eqn:Hu.
  - pose proof (stored_prefix_bound (ustored env) old n) as (Hk & _).
    exists (<[ub := take (stored_prefix (ustored env) old n)
                      (take (Z.to_nat n) (drop (Z.to_nat o) blk))
                    ++ drop (stored_prefix (ustored env) old n) old]> (umem w)).
    unfold call, aesd_read. rewrite Hi.
    destruct w as [h u [cb pb ps lk] fp]. wsimpl. subst lk.
    kstep mutex_lock_taken. rewrite decide_False by (by intros []).
    kpure. kpure. rewrite Hsz, Hfind, He, Ha. rewrite size_t_small by lia.
    rewrite Hmin.
    kstep_with copy_to_user_fails
      ltac:(first [exact Hblk | exact Hu | lia
                  | destruct Hfail as [->|Hfail];
                    [by left|right; by apply Hfail] ]).
    rewrite decide_True by lia. by kpure.
  - exists (umem w). rewrite set_umem_id.
    unfold call, aesd_read. rewrite Hi.
    destruct w as [h u [cb pb ps lk] fp]. wsimpl. subst lk.
    kstep mutex_lock_taken. rewrite decide_False by (by intros []).
    kpure. kpure. rewrite Hsz, Hfind, He, Ha. rewrite size_t_small by lia.
    rewrite Hmin.
    kstep_with copy_to_user_unmapped ltac:(first [exact Hblk | exact Hu | lia]).
    rewrite decide_True by done. by kpure.
Qed.

(** A transfer of no bytes cannot fail. *)
Lemma aesd_read_nothing env ub i o e a blk w :
  wf w → lock_intr env = false →
  aesd_circular_buffer_find_entry_offset_for_fpos
    (circular_buffer (dev w)) (size_t (f_pos w)) = Some (i, o) →
  entry (circular_buffer (dev w)) !! i = Some e →
  buffptr e = Some a → kmem w !! a = Some blk →
  ufault env = true ∨ umem w !! ub = None →
  call (aesd_read env (Some ub) 0) w = Some (0, w).
Proof.
  intros Hwf Hi Hfind He Ha Hblk Hfail.
  pose proof KMALLOC_MAX_SIZE_small as HK.
  destruct (resolved_f_pos _ _ _ Hwf Hfind) as (Hsz & Hpos).
  pose proof (log_length_bound _ Hwf) as Hb.
  rewrite Hsz in Hfind.
  destruct (find_entry_Some _ _ _ _ Hwf (proj1 Hpos) Hfind)
    as (_ & e' & a' & blk' & He' & Ho & Ha' & Hblk' & Hlen & Hmax).
  assert (e' = e) as -> by congruence. assert (a' = a) as -> by congruence.
  assert (blk' = blk) as -> by congruence.
  pose proof (wf_unlocked _ Hwf) as Hl. clear Hwf.
  unfold call, aesd_read. rewrite Hi.
  destruct w as [h u [cb pb ps lk] fp]. wsimpl. subst lk.
  kstep mutex_lock_taken. rewrite decide_False by (by intros []).
  kpure. kpure. rewrite Hsz, Hfind, He, Ha. rewrite size_t_small by lia.
  destruct (Z.ltb_spec 0 (size e - o)); [|lia].
  destruct (u !! ub) as [old|] eqn:Hu.
  - destruct Hfail as [Hf|]; [|done].
    kstep_with copy_to_user_fails
      ltac:(first [exact Hblk | exact Hu | lia | by left]).
    unfold stored_prefix. rewrite Nat.min_0_r. cbn [take drop app Z.of_nat Z.sub Z.opp].
    rewrite insert_id by done.
    rewrite decide_False by (by intros []).
    kpure. kpure. unfold loff_t. rewrite Z.add_0_r, !ssize_t_small by lia. done.
  - kstep_with copy_to_user_unmapped ltac:(first [exact Hblk | exact Hu | lia]).
    rewrite decide_False by (by intros []).
    kpure. kpure. unfold loff_t. rewrite Z.add_0_r, !ssize_t_small by lia. done.
Qed.

(** ** Every call of [aesd_read] returns, in one of two ways *)

Lemma aesd_read_cases env buf count w :
  wf w → 0 ≤ count →
  ∃ r w', call (aesd_read env buf count) w = Some (r, w') ∧
    ((r ≤ 0 ∧ ∃ u, w' = set_umem u w)
     ∨ ∃ ub old i o e a blk,
         buf = Some ub ∧ lock_intr env = false ∧ ufault env = false
         ∧ umem w !! ub = Some old
         ∧ aesd_circular_buffer_find_entry_offset_for_fpos
             (circular_buffer (dev w)) (size_t (f_pos w)) = Some (i, o)
         ∧ entry (circular_buffer (dev w)) !! i = Some e
         ∧ buffptr e = Some a ∧ kmem w !! a = Some blk
         ∧ r = Z.min count (size e - o) ∧ 0 ≤ r
         ∧ w' = read_world w ub old blk o r).
Proof.
  intros Hwf Hc.
  pose proof (wf_unlocked _ Hwf) as Hl.
  assert (0 < EFAULT ∧ 0 < ERESTARTSYS) as (? & ?) by done.
  assert (∃ u, w = set_umem u w) as Hsame.
  { exists (umem w). by rewrite set_umem_id. }
  destruct buf as [ub|]; [|exists (- EFAULT), w; split; [done|left; split; [lia|done]]].
  destruct (lock_intr env) eqn:Hi.
  { exists (- ERESTARTSYS), w. split; [by apply aesd_read_interrupted|].
    left. split; [lia|done]. }
  destruct (aesd_circular_buffer_find_entry_offset_for_fpos
              (circular_buffer (dev w)) (size_t (f_pos w))) as [[i o]|] eqn:Hfind;
    cycle 1.
  { exists 0, w. split; [by apply aesd_read_eof|]. left. split; [lia|done]. }
  destruct (resolved_f_pos _ _ _ Hwf Hfind) as (Hsz & Hpos).
  pose proof Hfind as Hfind'. rewrite Hsz in Hfind'.
  destruct (find_entry_Some _ _ _ _ Hwf (proj1 Hpos) Hfind')
    as (_ & e & a & blk & He & Ho & Ha & Hblk & Hlen & Hmax).
  set (n := Z.min count (size e - o)).
  assert (ufault env = true
          ∨ (∀ old, umem w !! ub = Some old → Z.of_nat (length old) < n)
          ∨ (ufault env = false
             ∧ ∃ old, umem w !! ub = Some old ∧ n ≤ Z.of_nat (length old)))
    as [Hfail|[Hfail|(Hf & old & Hu & Hroom)]].
  { destruct (ufault env); [by left|right].
    destruct (umem w !! ub) as [old|]; [|by left].
    destruct (decide (n ≤ Z.of_nat (length old))).
    - right. split; [done|]. by exists old.
    - left. intros ? [= <-]. lia. }
  3:{ exists n, (read_world w ub old blk o n). split.
      - by eapply aesd_read_entry.
      - right. exists ub, old, i, o, e, a, blk. split_and!; try done. lia. }
  all: destruct (decide (n = 0)) as [Hn|Hn];
    [ assert (count = 0) as -> by lia;
      exists 0, w; split; [|left; split; [lia|done]]
    | destruct (aesd_read_transfer_fault env ub count i o e a blk w) as [u Hcall];
      [done|done|done|done|done|done|done|done|by eauto|];
      exists (- EFAULT), (set_umem u w); split; [done|left; split; [lia|by exists u]] ].
  - eapply aesd_read_nothing; eauto.
  - eapply aesd_read_nothing; eauto. right.
    destruct (umem w !! ub) as [old|] eqn:Hu; [|done].
    specialize (Hfail _ eq_refl). lia.
Qed.

Lemma wf_set_umem u w : wf w → wf (set_umem u w).
Proof. intros Hwf. by destruct Hwf. Qed.

Lemma aesd_read_wf env buf count w r w' :
  wf w → 0 ≤ count →
  call (aesd_read env buf count) w = Some (r, w') → wf w'.
Proof.
  intros Hwf Hc Hcall.
  destruct (aesd_read_cases env buf count w Hwf Hc) as (r0 & w0 & Hcall0 & Hcases).
  rewrite Hcall in Hcall0. injection Hcall0 as <- <-.
  destruct Hcases as [[_ [u ->]]|(ub & old & i & o & e & a & blk & _ & _ & _ & _
                               & Hfind & He & Ha & Hblk & Hr & Hr0 & ->)];
    [by apply wf_set_umem|].
  destruct (resolved_f_pos _ _ _ Hwf Hfind) as (Hsz & Hpos).
  pose proof (log_length_bound _ Hwf) as Hb.
  pose proof KMALLOC_MAX_SIZE_small as HK.
  rewrite Hsz in Hfind.
  destruct (find_entry_Some _ _ _ _ Hwf (proj1 Hpos) Hfind)
    as (_ & e' & a' & blk' & He' & Ho & Ha' & Hblk' & Hlen & Hmax).
  assert (e' = e) as -> by congruence.
  destruct Hwf. split; unfold read_world; wnorm; try done. lia.
Qed.

(** ** Every reachable world is well formed *)

Lemma aesd_init_module_wf u p :
  - 2 ^ 63 ≤ p < 2 ^ 63 →
  wf {| kmem := ∅; umem := u; dev := aesd_init_module; f_pos := p |}.
Proof.
  intros Hp. split; [done| |done| | | | |exact Hp].
  - unfold AESDCHAR_MAX_WRITE_OPERATIONS_SUPPORTED. cbn. lia.
  - by left.
  - intros i e Hi. by apply elem_of_nil in Hi.
  - intros i j ei ej Hi. by apply elem_of_nil in Hi.
  - intros i e Hi. by apply elem_of_nil in Hi.
Qed.

Lemma reachable_wf w : reachable w → wf w.
Proof.
  induction 1 as [u p Hp|w u p _ IH Hp|w env buf count r w' _ IH Hc Hcall
                 |w env buf count r w' _ IH Hok Hc Hcall].
  - by apply aesd_init_module_wf.
  - destruct IH. by split.
  - eapply aesd_read_wf; [done| |done]. lia.
  - by eapply aesd_write_wf.
Qed.

(** ** The log is a FIFO *)

(** Ingesting appends the new entry and, once the log is full, drops the
    oldest one. *)
Lemma live_entries_add_entry e b :
  length (entry b) = AESDCHAR_MAX_WRITE_OPERATIONS_SUPPORTED →
  (in_offs b < AESDCHAR_MAX_WRITE_OPERATIONS_SUPPORTED)%nat →
  live_entries (aesd_circular_buffer_add_entry e b)
  = (if full b then drop 1 (live_entries b) else live_entries b) ++ [e].
Proof.
  destruct b as [es io fl]. unfold AESDCHAR_MAX_WRITE_OPERATIONS_SUPPORTED.
  cbn [entry in_offs full]. intros Hlen Hio.
  do 10 (destruct es as [|? es]; [done|]). destruct es; [|done].
  do 10 (destruct io as [|io]; [by destruct fl|]). lia.
Qed.

(** The entries an ingestion keeps sit in live slots other than the one it
    overwrites. *)
Lemma kept_entries b e :
  length (entry b) = AESDCHAR_MAX_WRITE_OPERATIONS_SUPPORTED →
  (in_offs b < AESDCHAR_MAX_WRITE_OPERATIONS_SUPPORTED)%nat →
  e ∈ (if full b then drop 1 (live_entries b) else live_entries b) →
  ∃ i, i ∈ live_slots b ∧ entry b !! i = Some e
       ∧ (full b = true → i ≠ in_offs b).
Proof.
  intros Hlen Hio. unfold live_entries, live_slots.
  destruct (full b) eqn:Hfull.
  - unfold AESDCHAR_MAX_WRITE_OPERATIONS_SUPPORTED in *.
    change (seq 0 10) with (0%nat :: seq 1 9). cbn [fmap list_fmap omap list_omap].
    rewrite Nat.add_0_r, Nat.mod_small by done.
    destruct (lookup_lt_is_Some_2 (entry b) (in_offs b)) as [old Hold]; [lia|].
    rewrite Hold. cbn [drop]. intros He.
    apply list_elem_of_omap in He as (i & Hi & He).
    exists i. split; [by right|]. split; [done|]. intros _.
    apply list_elem_of_fmap in Hi as (k & -> & Hk). apply elem_of_seq in Hk.
    destruct (decide (in_offs b + k < 10)%nat).
    + rewrite Nat.mod_small by done. lia.
    + replace (in_offs b + k)%nat with (in_offs b + k - 10 + 1 * 10)%nat by lia.
      rewrite Nat.Div0.mod_add, Nat.mod_small by lia. lia.
  - intros He. apply list_elem_of_omap in He as (i & Hi & He).
    exists i. by split_and!.
Qed.

Lemma entry_bytes_kept w a new e :
  wf w → kmem w !! a = None →
  e ∈ (if full (circular_buffer (dev w))
       then drop 1 (live_entries (circular_buffer (dev w)))
       else live_entries (circular_buffer (dev w))) →
  entry_bytes (<[a := new]> (release (evicted (circular_buffer (dev w)) ≫= buffptr)
                               (release (partial_write_buffer (dev w)) (kmem w)))) e
  = entry_bytes (kmem w) e.
Proof.
  intros Hwf Hn He.
  apply kept_entries in He as (i & Hi & He & Hne); [|apply Hwf..].
  destruct (owned_block_kept w i e a new Hwf Hn Hi He Hne) as (p & Hp & _ & Hlk).
  unfold entry_bytes. by rewrite Hp, Hlk.
Qed.

(** The oldest live entry of a full log is the one in slot [in_offs]. *)
Lemma oldest_entry b :
  length (entry b) = AESDCHAR_MAX_WRITE_OPERATIONS_SUPPORTED →
  (in_offs b < AESDCHAR_MAX_WRITE_OPERATIONS_SUPPORTED)%nat →
  full b = true →
  head (live_entries b) = entry b !! in_offs b ∧ is_Some (entry b !! in_offs b).
Proof.
  intros Hlen Hio Hfull. unfold live_entries, live_slots. rewrite Hfull.
  unfold AESDCHAR_MAX_WRITE_OPERATIONS_SUPPORTED in *.
  change (seq 0 10) with (0%nat :: seq 1 9). cbn [fmap list_fmap omap list_omap].
  rewrite Nat.add_0_r, Nat.mod_small by done.
  destruct (lookup_lt_is_Some_2 (entry b) (in_offs b)) as [old Hold]; [lia|].
  rewrite Hold. by split.
Qed.

(** ** The sample session *)

Lemma sample_start_reachable : reachable sample_start.
Proof. by apply reach_init. Qed.

Lemma sample_env_ok a1 a2 w :
  kmem w !! a1 = None → kmem w !! a2 = None → a1 ≠ a2 →
  kenv_ok (sample_env a1 a2) w.
Proof. intros H1 H2 Hne. split_and!; [done..|]. intros _ [=]. done. Qed.

Lemma after_write_reachable a1 a2 ub count w :
  reachable w → kmem w !! a1 = None → kmem w !! a2 = None → a1 ≠ a2 →
  0 ≤ count < 2 ^ 64 →
  reachable (after_write (sample_env a1 a2) ub count w).
Proof.
  intros Hw H1 H2 Hne Hc. unfold after_write.
  pose proof (sample_env_ok a1 a2 w H1 H2 Hne) as Hok.
  destruct (call _ w) as [[r w']|] eqn:Hcall; [|done].
  by eapply reach_write.
Qed.

Lemma sample_pending_reachable : reachable sample_pending.
Proof. by apply after_write_reachable; [apply sample_start_reachable|..]. Qed.

Lemma sample_one_reachable : reachable sample_one.
Proof.
  apply after_write_reachable; [apply sample_pending_reachable|by vm_compute..|done|done].
Qed.

Lemma sample_full_reachable : reachable sample_full.
Proof.
  unfold sample_full.
  do 9 (apply after_write_reachable; [|by vm_compute..|done|done]).
  apply sample_one_reachable.
Qed.

(** The scenario of the specification, step by step. *)

Example write_hello :
  call (aesd_write (sample_env 10 11) (Some 1%positive) 5) sample_start
  = Some (5, sample_pending)
  ∧ pending sample_pending = ["h"; "e"; "l"; "l"; "o"]%byte
  ∧ log_stream sample_pending = [].
Proof. by vm_compute. Qed.

Example write_world :
  call (aesd_write (sample_env 12 13) (Some 2%positive) 7) sample_pending
  = Some (7, sample_one)
  ∧ pending sample_one = []
  ∧ log_stream sample_one
    = ["h"; "e"; "l"; "l"; "o"; " "; "w"; "o"; "r"; "l"; "d"; x0a]%byte.
Proof. by vm_compute. Qed.

Example write_abc_def :
  call (aesd_write (sample_env 102 103) (Some 3%positive) 7) sample_one
  = Some (4, sample_more 1 sample_one)
  ∧ pending (sample_more 1 sample_one) = []
  ∧ log_stream (sample_more 1 sample_one)
    = ["h"; "e"; "l"; "l"; "o"; " "; "w"; "o"; "r"; "l"; "d"; x0a;
       "a"; "b"; "c"; x0a]%byte.
Proof. by vm_compute. Qed.

Example read_three_times :
  let w0 := sample_more 1 sample_one in
  let w1 := after_read (sample_env 1 2) 4 100 w0 in
  let w2 := after_read (sample_env 1 2) 4 100 w1 in
  call (aesd_read (sample_env 1 2) (Some 4%positive) 100) w0 = Some (12, w1)
  ∧ take 12 <$> umem w1 !! 4%positive
    = Some ["h"; "e"; "l"; "l"; "o"; " "; "w"; "o"; "r"; "l"; "d"; x0a]%byte
  ∧ call (aesd_read (sample_env 1 2) (Some 4%positive) 100) w1 = Some (4, w2)
  ∧ take 4 <$> umem w2 !! 4%positive = Some ["a"; "b"; "c"; x0a]%byte
  ∧ call (aesd_read (sample_env 1 2) (Some 4%positive) 10) w2 = Some (0, w2).
Proof. vm_compute. by split_and!. Qed.

(** * The specification's claims *)

(** C9: a read or a write called with a NULL caller buffer returns -EFAULT,
    the driver's invalid-argument error, and leaves the whole world (pending
    buffer, ring log, kernel heap, mutex, file position) as it was, whatever
    the environment would have answered: no locking and no allocation is
    attempted, even if the mutex is held. *)
Theorem null_buffer_rejected env count w :
  call (aesd_read env None count) w = Some (- EFAULT, w)
  ∧ call (aesd_write env None count) w = Some (- EFAULT, w).
Proof. split; [apply aesd_read_null|apply aesd_write_null]. Qed.

(** C7: a read, or a write of at least one byte, whose wait for the mutex is
    cancelled by a signal returns -ERESTARTSYS, which differs from the
    driver's other errors -EFAULT and -ENOMEM and is no byte count, and
    leaves the whole world as it was. *)
Theorem interrupted_call_restarts env ub count w :
  lock_intr env = true →
  call (aesd_read env (Some ub) count) w = Some (- ERESTARTSYS, w)
  ∧ (count ≠ 0 → call (aesd_write env (Some ub) count) w = Some (- ERESTARTSYS, w))
  ∧ - ERESTARTSYS ≠ - EFAULT ∧ - ERESTARTSYS ≠ - ENOMEM ∧ - ERESTARTSYS < 0.
Proof.
  intros Hi. split_and!; [|intros Hc|done..].
  - by apply aesd_read_interrupted.
  - by apply aesd_write_interrupted.
Qed.

Lemma interrupted_call_restarts_witness :
  call (aesd_read interrupted_env (Some 4%positive) 16) sample_one
  = Some (- ERESTARTSYS, sample_one)
  ∧ call (aesd_write interrupted_env (Some 3%positive) 7) sample_one
    = Some (- ERESTARTSYS, sample_one).
Proof.
  pose proof (interrupted_call_restarts interrupted_env 4%positive 16 sample_one eq_refl)
    as (Hr & _).
  pose proof (interrupted_call_restarts interrupted_env 3%positive 7 sample_one eq_refl)
    as (_ & Hw & _).
  split; [exact Hr|apply Hw; discriminate].
Defined.

(** C6: a read at a file position at or past the total logical length of the
    live entries finds no entry and returns 0, a success and not an error,
    and leaves the device and the file position as they were. *)
Theorem read_past_end_is_eof env ub count w :
  wf w → lock_intr env = false →
  log_length (circular_buffer (dev w)) ≤ f_pos w →
  aesd_circular_buffer_find_entry_offset_for_fpos
    (circular_buffer (dev w)) (size_t (f_pos w)) = None
  ∧ call (aesd_read env (Some ub) count) w = Some (0, w).
Proof.
  intros Hwf Hi Hpos.
  pose proof (wf_f_pos _ Hwf) as Hrange. pose proof (log_length_nonneg _ Hwf) as Hnn.
  assert (aesd_circular_buffer_find_entry_offset_for_fpos
            (circular_buffer (dev w)) (size_t (f_pos w)) = None) as Hfind.
  { rewrite size_t_small by lia. apply find_entry_None; [done|lia|done]. }
  split; [done|]. apply aesd_read_eof; [apply Hwf|done..].
Qed.

Lemma read_past_end_is_eof_witness :
  call (aesd_read (sample_env 1 2) (Some 4%positive) 10)
    (set_f_pos 12 (set_umem sample_umem sample_one))
  = Some (0, set_f_pos 12 (set_umem sample_umem sample_one)).
Proof.
  apply (read_past_end_is_eof (sample_env 1 2) 4%positive 10
           (set_f_pos 12 (set_umem sample_umem sample_one))).
  - apply reachable_wf, reach_caller; [apply sample_one_reachable|lia].
  - reflexivity.
  - vm_compute. discriminate.
Defined.

(** C5: when the allocation of the grown buffer fails (the allocator
    answers NULL, or is asked for more than it serves), be it the buffer of
    the completed command or the enlarged pending buffer, the write returns
    -ENOMEM, which is no byte count, and leaves the whole world (pending
    buffer, ring log, kernel heap) as it was. *)
Theorem write_out_of_memory env ub data count w :
  wf w → kenv_ok env w →
  lock_intr env = false → ufault env = false →
  umem w !! ub = Some data → 0 < count ≤ Z.of_nat (length data) →
  is_Some (alloc1 env) → count ≤ KMALLOC_MAX_SIZE →
  alloc2 env = None
  ∨ KMALLOC_MAX_SIZE
    < partial_write_size (dev w) + Z.of_nat (accepted (take (Z.to_nat count) data)) →
  call (aesd_write env (Some ub) count) w = Some (- ENOMEM, w) ∧ - ENOMEM < 0.
Proof.
  intros Hwf (Hf1 & _) Hi Hf Hu Hc [a1 Ha1] Hcm Hfail. split; [|done].
  rewrite Ha1 in Hf1. by eapply aesd_write_no_grown_buffer.
Qed.

Lemma write_out_of_memory_witness :
  call (aesd_write (exhausted_env 20) (Some 2%positive) 7) sample_pending
  = Some (- ENOMEM, sample_pending).
Proof.
  apply (write_out_of_memory (exhausted_env 20) 2%positive
           [" "; "w"; "o"; "r"; "l"; "d"; x0a]%byte 7 sample_pending).
  - apply reachable_wf, sample_pending_reachable.
  - split_and!; [by vm_compute|done|]. intros _ [=].
  - reflexivity.
  - reflexivity.
  - by vm_compute.
  - cbn. lia.
  - by eexists.
  - by vm_compute.
  - by left.
Defined.

Lemma write_granted_fresh env w ub data count a :
  kenv_ok env w → write_granted env w ub data count a →
  ∃ a1, alloc1 env = Some a1 ∧ kmem w !! a1 = None ∧ kmem w !! a = None ∧ a1 ≠ a.
Proof.
  intros (Hf1 & Hf2 & Hdist) (_ & _ & _ & _ & [a1 Ha1] & _ & Ha2 & _).
  rewrite Ha1 in Hf1. rewrite Ha2 in Hf2. exists a1. split_and!; [done..|].
  intros ->. apply Hdist; [by rewrite Ha1|congruence].
Qed.

(** The blocks of the live entries survive the growth of the pending buffer. *)
Lemma entry_bytes_pending_world w a chunk e :
  wf w → kmem w !! a = None →
  e ∈ live_entries (circular_buffer (dev w)) →
  entry_bytes (kmem (pending_world w a chunk)) e = entry_bytes (kmem w) e.
Proof.
  intros Hwf Hn He. apply list_elem_of_omap in He as (i & Hi & He).
  destruct (wf_live _ Hwf _ _ Hi He) as (p & blk & Hp & Hblk & _).
  unfold entry_bytes, pending_world. wnorm. rewrite Hp.
  rewrite lookup_insert_ne by congruence.
  destruct (partial_write_buffer (dev w)) as [pb|] eqn:Hpb; [|done].
  cbn [release]. rewrite lookup_delete_ne; [done|]. intros ->.
  eapply (wf_partial_sep _ Hwf _ _ Hi He); [by rewrite Hpb|]. congruence.
Qed.

(** C4: a write of a non-empty chunk that holds no newline returns the
    chunk's length as the accepted count; it ingests no entry, the ring log
    and the bytes of its entries are as before, and the pending buffer is
    its prior contents followed by the whole chunk, so that its recorded
    size grows by exactly the chunk's length.  Whatever the environment
    answers, such a write never changes the ring log. *)
Theorem write_without_newline env ub data count a w :
  wf w → kenv_ok env w → write_granted env w ub data count a →
  list_find (λ b, b = newline) (take (Z.to_nat count) data) = None →
  let chunk := take (Z.to_nat count) data in
  let w' := pending_world w a chunk in
  call (aesd_write env (Some ub) count) w = Some (count, w')
  ∧ Z.of_nat (length chunk) = count
  ∧ circular_buffer (dev w') = circular_buffer (dev w)
  ∧ log_stream w' = log_stream w
  ∧ pending w' = pending w ++ chunk
  ∧ partial_write_size (dev w')
    = partial_write_size (dev w) + Z.of_nat (length chunk)
  ∧ Z.of_nat (length (pending w')) = partial_write_size (dev w')
  ∧ ∀ env' r w'', kenv_ok env' w →
      call (aesd_write env' (Some ub) count) w = Some (r, w'') →
      circular_buffer (dev w'') = circular_buffer (dev w).
Proof.
  intros Hwf Hok Hg Hfind chunk w'.
  destruct (write_granted_fresh _ _ _ _ _ _ Hok Hg) as (a1 & Ha1 & Hn1 & Hn2 & Hne).
  destruct Hg as (Hi & Hf & Hu & Hc & _ & Hcm & Ha2 & Hsz).
  unfold accepted in Hsz. rewrite Hfind in Hsz.
  assert (Z.of_nat (length chunk) = count) as Hlen.
  { unfold chunk. rewrite length_take. lia. }
  fold chunk in Hsz. rewrite Hlen in Hsz.
  pose proof (length_pending _ Hwf) as Hpend.
  split_and!.
  - unfold w', pending_world. rewrite Hlen. by eapply aesd_write_pending.
  - done.
  - done.
  - unfold log_stream. f_equal. apply list_fmap_ext. intros i e He.
    apply entry_bytes_pending_world; [done..|]. by eapply list_elem_of_lookup_2.
  - unfold pending at 1, w', pending_world. wnorm. by rewrite lookup_insert_eq.
  - done.
  - unfold pending at 1, w', pending_world. wnorm.
    rewrite lookup_insert_eq. simpl. rewrite length_app. lia.
  - intros env' r w'' Hok' Hcall.
    destruct (aesd_write_cases env' (Some ub) count w Hwf Hok' ltac:(pose proof KMALLOC_MAX_SIZE_small; lia))
      as (r0 & w0 & Hcall0 & Hcases).
    rewrite Hcall in Hcall0. injection Hcall0 as <- <-.
    destruct Hcases as [[_ ->]|(ub' & data' & a' & [= <-] & Hu' & _ & _ & _ & _ & _ & _ & Hres)];
      [done|].
    rewrite Hu in Hu'. injection Hu' as <-. rewrite Hfind in Hres.
    by destruct Hres as (_ & -> & _).
Qed.

Lemma write_without_newline_witness :
  call (aesd_write (sample_env 10 11) (Some 1%positive) 5) sample_start
  = Some (5, pending_world sample_start 11 ["h"; "e"; "l"; "l"; "o"]%byte).
Proof.
  apply (write_without_newline (sample_env 10 11) 1%positive
           ["h"; "e"; "l"; "l"; "o"]%byte 5 11%positive sample_start).
  - apply reachable_wf, sample_start_reachable.
  - by apply sample_env_ok.
  - split_and!; [done..|cbn; lia|by eexists|by vm_compute|done|by vm_compute].
  - reflexivity.
Defined.

(** A granted write of a chunk with a newline leaves [command_world]. *)
Lemma aesd_write_command_world env ub data count a d x w :
  wf w → kenv_ok env w → write_granted env w ub data count a →
  list_find (λ b, b = newline) (take (Z.to_nat count) data) = Some (d, x) →
  call (aesd_write env (Some ub) count) w
  = Some (Z.of_nat d + 1, command_world w a (take (Z.to_nat count) data) d).
Proof.
  intros Hwf Hok Hg Hfind.
  destruct (write_granted_fresh _ _ _ _ _ _ Hok Hg) as (a1 & Ha1 & Hn1 & Hn2 & Hne).
  destruct Hg as (Hi & Hf & Hu & Hc & _ & Hcm & Ha2 & Hsz).
  unfold accepted in Hsz. rewrite Hfind in Hsz.
  pose proof (list_find_bound _ _ _ Hfind) as Hd. rewrite length_take in Hd.
  unfold command_world. rewrite take_take, (Nat.min_l (S d)) by lia.
  eapply aesd_write_command; eauto; lia.
Qed.

(** C1: a write of a non-empty chunk whose first newline is at offset [d]
    returns the accepted count [d + 1] and ingests exactly one command into
    the ring log: the log's entries are the ones it had (less the oldest if
    it was full) followed by one new entry of size priorPending + d + 1,
    whose bytes are the pending bytes followed by the chunk up to and
    including the newline.  The pending buffer is empty afterwards, and the
    logical stream is the kept entries' bytes followed by that command, so
    no byte of the chunk after offset [d] is in the pending buffer or in any
    entry. *)
Theorem write_with_newline env ub data count a d x w :
  wf w → kenv_ok env w → write_granted env w ub data count a →
  list_find (λ b, b = newline) (take (Z.to_nat count) data) = Some (d, x) →
  let chunk := take (Z.to_nat count) data in
  let command := pending w ++ take (S d) chunk in
  let kept := if full (circular_buffer (dev w))
              then drop 1 (live_entries (circular_buffer (dev w)))
              else live_entries (circular_buffer (dev w)) in
  let w' := command_world w a chunk d in
  call (aesd_write env (Some ub) count) w = Some (Z.of_nat d + 1, w')
  ∧ chunk !! d = Some newline
  ∧ Z.of_nat (length command) = partial_write_size (dev w) + Z.of_nat d + 1
  ∧ live_entries (circular_buffer (dev w'))
    = kept ++ [{| buffptr := Some a;
                  size := partial_write_size (dev w) + Z.of_nat d + 1 |}]
  ∧ kmem w' !! a = Some command
  ∧ pending w' = [] ∧ partial_write_size (dev w') = 0
  ∧ log_stream w' = concat (entry_bytes (kmem w) <$> kept) ++ command.
Proof.
  intros Hwf Hok Hg Hfind chunk command kept w'.
  destruct (write_granted_fresh _ _ _ _ _ _ Hok Hg) as (a1 & Ha1 & Hn1 & Hn2 & Hne).
  pose proof (aesd_write_command_world _ _ _ _ _ _ _ _ Hwf Hok Hg Hfind) as Hcall.
  destruct Hg as (Hi & Hf & Hu & Hc & _ & Hcm & Ha2 & Hsz).
  unfold accepted in Hsz. rewrite Hfind in Hsz.
  pose proof (list_find_bound _ _ _ Hfind) as Hd. fold chunk in Hd.
  pose proof (length_pending _ Hwf) as Hpend.
  assert (live_entries (circular_buffer (dev w'))
          = kept ++ [{| buffptr := Some a;
                        size := partial_write_size (dev w) + Z.of_nat d + 1 |}]) as Hlive.
  { unfold w', command_world. wnorm. apply live_entries_add_entry; apply Hwf. }
  assert (kmem w' !! a = Some command) as Hcmd.
  { unfold w', command_world. wnorm. apply lookup_insert_eq. }
  split_and!.
  - exact Hcall.
  - apply list_find_Some in Hfind as (Hlk & -> & _). done.
  - unfold command. rewrite length_app, length_take. lia.
  - done.
  - done.
  - done.
  - done.
  - unfold log_stream. rewrite Hlive, fmap_app, concat_app. f_equal.
    + f_equal. apply list_fmap_ext. intros i e He.
      unfold w', command_world. wnorm.
      apply entry_bytes_kept; [done..|]. by eapply list_elem_of_lookup_2.
    + cbn [fmap list_fmap concat]. unfold entry_bytes at 1. cbn [buffptr].
      rewrite Hcmd. simpl. by rewrite app_nil_r.
Qed.

Lemma write_with_newline_witness :
  call (aesd_write (sample_env 14 15) (Some 3%positive) 7) sample_one
  = Some (4, command_world sample_one 15 ["a"; "b"; "c"; x0a; "d"; "e"; "f"]%byte 3).
Proof.
  apply (write_with_newline (sample_env 14 15) 3%positive
           ["a"; "b"; "c"; x0a; "d"; "e"; "f"]%byte 7 15%positive 3 x0a sample_one).
  - apply reachable_wf, sample_one_reachable.
  - by apply sample_env_ok.
  - split_and!; [done..|cbn; lia|by eexists|by vm_compute|done|by vm_compute].
  - reflexivity.
Defined.

(** C2: a read whose file position resolves to an entry at in-entry offset
    [o], and whose copy to the caller goes through, returns
    min(count, entry.size - o) bytes; they are the bytes of that one entry
    from offset [o] on, so none of them belongs to another entry, however
    large [count] is.  The file position advances by that number. *)
Theorem read_single_entry env ub count old i o e w :
  wf w → 0 ≤ count → lock_intr env = false → ufault env = false →
  aesd_circular_buffer_find_entry_offset_for_fpos
    (circular_buffer (dev w)) (size_t (f_pos w)) = Some (i, o) →
  entry (circular_buffer (dev w)) !! i = Some e →
  umem w !! ub = Some old →
  Z.min count (size e - o) ≤ Z.of_nat (length old) →
  let n := Z.min count (size e - o) in
  let returned := take (Z.to_nat n) (drop (Z.to_nat o) (entry_bytes (kmem w) e)) in
  ∃ w', call (aesd_read env (Some ub) count) w = Some (n, w')
    ∧ umem w' !! ub = Some (returned ++ drop (Z.to_nat n) old)
    ∧ Z.of_nat (length returned) = n
    ∧ Z.of_nat (length (entry_bytes (kmem w) e)) = size e
    ∧ 0 ≤ o ∧ o + n ≤ size e
    ∧ f_pos w' = f_pos w + n ∧ dev w' = dev w ∧ kmem w' = kmem w.
Proof.
  intros Hwf Hc Hi Hf Hfind He Hu Hroom n returned.
  destruct (resolved_f_pos _ _ _ Hwf Hfind) as (Hsz & Hpos).
  pose proof Hfind as Hfind'. rewrite Hsz in Hfind'.
  destruct (find_entry_Some _ _ _ _ Hwf (proj1 Hpos) Hfind')
    as (_ & e' & a & blk & He' & Ho & Ha & Hblk & Hlen & Hmax).
  assert (e' = e) as -> by congruence.
  assert (entry_bytes (kmem w) e = blk) as Hbytes.
  { unfold entry_bytes. by rewrite Ha, Hblk. }
  exists (read_world w ub old blk o n). split_and!.
  - by eapply aesd_read_entry.
  - unfold read_world, returned. wnorm. by rewrite lookup_insert_eq, Hbytes.
  - unfold returned. rewrite Hbytes, length_take, length_drop. lia.
  - by rewrite Hbytes.
  - lia.
  - lia.
  - done.
  - done.
  - done.
Qed.

Lemma read_single_entry_witness :
  ∃ w', call (aesd_read (sample_env 1 2) (Some 4%positive) 100)
          (sample_more 1 sample_one) = Some (12, w')
    ∧ umem w' !! 4%positive
      = Some (["h"; "e"; "l"; "l"; "o"; " "; "w"; "o"; "r"; "l"; "d"; x0a]%byte
              ++ replicate 4 x00).
Proof.
  destruct (read_single_entry (sample_env 1 2) 4%positive 100 (replicate 16 x00)
              0%nat 0 {| buffptr := Some 13%positive; size := 12 |}
              (sample_more 1 sample_one))
    as (w' & Hcall & Hu & _).
  - apply reachable_wf.
    apply (after_write_reachable _ _ _ _ sample_one);
      [apply sample_one_reachable|by vm_compute..|done|done].
  - lia.
  - reflexivity.
  - reflexivity.
  - by vm_compute.
  - by vm_compute.
  - by vm_compute.
  - vm_compute. discriminate.
  - exists w'. split; [exact Hcall|exact Hu].
Defined.

(** C10: every read returns, and leaves the device (ring log entries,
    [in_offs], [full], pending buffer, mutex) and the kernel heap as they
    were; the file position advances by the number of bytes returned, and
    not at all when the call returns an error. *)
Theorem read_changes_only_position env buf count w :
  wf w → 0 ≤ count →
  ∃ r w', call (aesd_read env buf count) w = Some (r, w')
    ∧ dev w' = dev w ∧ kmem w' = kmem w
    ∧ pending w' = pending w ∧ log_stream w' = log_stream w
    ∧ f_pos w' = f_pos w + Z.max r 0.
Proof.
  intros Hwf Hc.
  destruct (aesd_read_cases env buf count w Hwf Hc) as (r & w' & Hcall & Hcases).
  exists r, w'. split; [done|].
  destruct Hcases as [[Hr [u ->]]|(ub & old & i & o & e & a & blk & _ & _ & _ & _
                               & _ & _ & _ & _ & _ & Hr & ->)].
  - unfold pending, log_stream. wnorm. split_and!; [done..|lia].
  - unfold pending, log_stream, read_world. wnorm. split_and!; [done..|lia].
Qed.

Lemma read_changes_only_position_witness :
  ∃ r w', call (aesd_read (sample_env 1 2) (Some 4%positive) 5) sample_one
          = Some (r, w')
    ∧ dev w' = dev sample_one ∧ kmem w' = kmem sample_one.
Proof.
  destruct (read_changes_only_position (sample_env 1 2) (Some 4%positive) 5 sample_one)
    as (r & w' & Hcall & Hdev & Hkmem & _).
  - apply reachable_wf, sample_one_reachable.
  - lia.
  - exists r, w'. split_and!; [exact Hcall|exact Hdev|exact Hkmem].
Defined.

Lemma find_entry_from_elem slots ids acc char_offset i o :
  find_entry_from slots ids acc char_offset = Some (i, o) → i ∈ ids.
Proof.
  revert acc. induction ids as [|j ids IH]; intros acc Hfind; [done|].
  cbn [find_entry_from] in Hfind.
  destruct (slots !! j) as [e|]; [|done].
  destruct (char_offset <? acc + size e).
  - injection Hfind as <- _. by left.
  - right. by eapply IH.
Qed.

(** C8: in every world the driver can reach, each live entry has a size
    greater than 0, which is the length of the bytes it owns; a write of
    zero bytes from a caller buffer returns 0, and any write of zero bytes
    leaves the world, hence the log, as it was; and a write whose chunk has
    its first newline at offset [d] returns [d + 1] and leaves as the newest
    live entry one of the size priorPending + d + 1, at least 1, where
    priorPending is the number of bytes that were pending. *)
Theorem live_entries_nonempty w :
  reachable w →
  (∀ e, e ∈ live_entries (circular_buffer (dev w)) →
        0 < size e ∧ Z.of_nat (length (entry_bytes (kmem w) e)) = size e)
  ∧ (∀ env ub, call (aesd_write env (Some ub) 0) w = Some (0, w))
  ∧ (∀ env buf, ∃ r, call (aesd_write env buf 0) w = Some (r, w))
  ∧ (∀ env ub data count a d x,
       kenv_ok env w → write_granted env w ub data count a →
       list_find (λ b, b = newline) (take (Z.to_nat count) data) = Some (d, x) →
       ∃ w', call (aesd_write env (Some ub) count) w = Some (Z.of_nat d + 1, w')
         ∧ last (live_entries (circular_buffer (dev w')))
           = Some {| buffptr := Some a;
                     size := Z.of_nat (length (pending w)) + Z.of_nat d + 1 |}
         ∧ 1 ≤ Z.of_nat (length (pending w)) + Z.of_nat d + 1
         ∧ ∀ e, e ∈ live_entries (circular_buffer (dev w')) → 0 < size e).
Proof.
  intros Hw. pose proof (reachable_wf _ Hw) as Hwf.
  assert (∀ v, wf v → ∀ e, e ∈ live_entries (circular_buffer (dev v)) →
            0 < size e ∧ Z.of_nat (length (entry_bytes (kmem v) e)) = size e)
    as Hlive.
  { intros v Hv e He. apply list_elem_of_omap in He as (i & Hi & He).
    destruct (wf_live _ Hv _ _ Hi He) as (p & blk & Hp & Hblk & Hlen & Hsize).
    unfold entry_bytes. rewrite Hp, Hblk. split; [lia|done]. }
  split_and!.
  - by apply Hlive.
  - intros env ub. apply aesd_write_zero.
  - intros env [ub|]; [exists 0; apply aesd_write_zero
                      |exists (- EFAULT); apply aesd_write_null].
  - intros env ub data count a d x Hok Hg Hfind.
    pose proof (aesd_write_command_world _ _ _ _ _ _ _ _ Hwf Hok Hg Hfind) as Hcall.
    assert (0 ≤ count < 2 ^ 64) as Hc.
    { pose proof KMALLOC_MAX_SIZE_small. destruct Hg as (_ & _ & _ & ? & _ & ? & _). lia. }
    pose proof (aesd_write_wf _ _ _ _ _ _ Hwf Hok Hc Hcall) as Hwf'.
    exists (command_world w a (take (Z.to_nat count) data) d).
    rewrite (length_pending _ Hwf). split_and!.
    + done.
    + unfold command_world. wnorm.
      rewrite live_entries_add_entry by apply Hwf. apply last_snoc.
    + pose proof (partial_write_size_bounds _ Hwf). lia.
    + intros e He. by apply (Hlive _ Hwf').
Qed.

Lemma live_entries_nonempty_witness :
  (∀ e, e ∈ live_entries (circular_buffer (dev sample_full)) → 0 < size e)
  ∧ call (aesd_write (sample_env 200 201) (Some 3%positive) 0) sample_full
    = Some (0, sample_full)
  ∧ ∃ w', call (aesd_write (sample_env 200 201) (Some 3%positive) 7) sample_full
          = Some (4, w')
    ∧ last (live_entries (circular_buffer (dev w')))
      = Some {| buffptr := Some 201%positive; size := 4 |}.
Proof.
  destruct (live_entries_nonempty sample_full sample_full_reachable)
    as (Hpos & Hzero & _ & Hingest).
  split_and!; [intros e He; exact (proj1 (Hpos e He))|apply Hzero|].
  destruct (Hingest (sample_env 200 201) 3%positive
              ["a"; "b"; "c"; x0a; "d"; "e"; "f"]%byte 7 201%positive 3%nat x0a)
    as (w' & Hcall & Hlast & _).
  - apply sample_env_ok; by vm_compute.
  - split_and!; [done..|cbn; lia|by eexists|by vm_compute|done|by vm_compute].
  - reflexivity.
  - exists w'. split; [exact Hcall|exact Hlast].
Defined.

(** C3: when a completed command is ingested into a full log, exactly one
    existing entry is released: the oldest live entry, the one in slot
    [in_offs].  Its block is freed, the slot then holds the new entry, no
    resolution in the resulting log reaches the freed block, and every other
    entry keeps its block and bytes.  When the log is not full, every entry
    keeps its block and bytes: none is released. *)
Theorem eviction_releases_oldest env ub data count a d x w :
  wf w → kenv_ok env w → write_granted env w ub data count a →
  list_find (λ b, b = newline) (take (Z.to_nat count) data) = Some (d, x) →
  let b := circular_buffer (dev w) in
  let kept := if full b then drop 1 (live_entries b) else live_entries b in
  let w' := command_world w a (take (Z.to_nat count) data) d in
  call (aesd_write env (Some ub) count) w = Some (Z.of_nat d + 1, w')
  ∧ (∀ e, e ∈ kept →
       ∃ q blk, buffptr e = Some q ∧ kmem w !! q = Some blk ∧ kmem w' !! q = Some blk)
  ∧ (full b = false → kept = live_entries b)
  ∧ (full b = true →
       ∃ old p blk,
         live_entries b = old :: kept
         ∧ entry b !! in_offs b = Some old
         ∧ buffptr old = Some p ∧ kmem w !! p = Some blk
         ∧ kmem w' !! p = None
         ∧ entry (circular_buffer (dev w')) !! in_offs b
           = Some {| buffptr := Some a;
                     size := partial_write_size (dev w) + Z.of_nat d + 1 |}
         ∧ ∀ char_offset i o e,
             aesd_circular_buffer_find_entry_offset_for_fpos
               (circular_buffer (dev w')) char_offset = Some (i, o) →
             entry (circular_buffer (dev w')) !! i = Some e →
             buffptr e ≠ Some p).
Proof.
  intros Hwf Hok Hg Hfind b kept w'.
  pose proof (aesd_write_command_world _ _ _ _ _ _ _ _ Hwf Hok Hg Hfind) as Hcall.
  destruct (write_granted_fresh _ _ _ _ _ _ Hok Hg) as (a1 & Ha1 & Hn1 & Hn2 & Hne).
  assert (wf w') as Hwf'.
  { eapply aesd_write_wf; [done..| |done].
    destruct Hg as (_ & _ & _ & Hc & _ & Hcm & _).
    pose proof KMALLOC_MAX_SIZE_small. lia. }
  split_and!.
  - done.
  - intros e He. apply kept_entries in He as (i & Hi & He & Hnio); [|apply Hwf..].
    destruct (owned_block_kept w i e a
                (pending w ++ take (S d) (take (Z.to_nat count) data))
                Hwf Hn2 Hi He Hnio) as (q & Hq & _ & Hlk).
    destruct (wf_live _ Hwf _ _ Hi He) as (q' & blk & Hq' & Hblk & _).
    assert (q' = q) as -> by congruence.
    exists q, blk. split_and!; [done..|].
    unfold w', command_world. wnorm. by rewrite Hlk.
  - unfold kept. by intros ->.
  - intros Hfull.
    destruct (oldest_entry b) as (Hhead & old & Hold); [apply Hwf..|done|].
    assert (in_offs b ∈ live_slots b) as Hin.
    { apply elem_of_live_slots; [apply Hwf|]. rewrite Hfull. apply Hwf. }
    destruct (wf_live _ Hwf _ _ Hin Hold) as (p & blk & Hp & Hblk & _).
    assert (kmem w' !! p = None) as Hfreed.
    { unfold w', command_world, evicted. wnorm. fold b. rewrite Hfull, Hold.
      cbn [mbind option_bind]. rewrite Hp. cbn [release].
      rewrite lookup_insert_ne by congruence. apply lookup_delete_eq. }
    exists old, p, blk. split_and!; [|done..| |].
    + unfold kept. rewrite Hfull. rewrite Hold in Hhead.
      destruct (live_entries b) as [|e0 l]; [done|]. by injection Hhead as ->.
    + unfold w', command_world. wnorm. fold b.
      cbn [aesd_circular_buffer_add_entry entry].
      apply list_lookup_insert_eq.
      pose proof (wf_slots _ Hwf) as Hs. pose proof (wf_in_offs _ Hwf) as Hio.
      fold b in Hs, Hio. lia.
    + intros char_offset i o e Hres He Hbuf.
      apply find_entry_from_elem in Hres.
      destruct (wf_live _ Hwf' _ _ Hres He) as (q & qblk & Hq & Hqblk & _).
      congruence.
Qed.

Lemma eviction_releases_oldest_witness :
  call (aesd_write (sample_env 200 201) (Some 3%positive) 7) sample_full
  = Some (4, command_world sample_full 201
               ["a"; "b"; "c"; x0a; "d"; "e"; "f"]%byte 3)
  ∧ kmem sample_full !! 13%positive
    = Some ["h"; "e"; "l"; "l"; "o"; " "; "w"; "o"; "r"; "l"; "d"; x0a]%byte
  ∧ kmem (command_world sample_full 201
            ["a"; "b"; "c"; x0a; "d"; "e"; "f"]%byte 3) !! 13%positive = None.
Proof.
  destruct (eviction_releases_oldest (sample_env 200 201) 3%positive
              ["a"; "b"; "c"; x0a; "d"; "e"; "f"]%byte 7 201%positive 3 x0a sample_full)
    as (Hcall & _ & _ & Hfull).
  - apply reachable_wf, sample_full_reachable.
  - apply sample_env_ok; by vm_compute.
  - split_and!; [done..|cbn; lia|by eexists|by vm_compute|done|by vm_compute].
  - reflexivity.
  - split_and!; [exact Hcall|by vm_compute|by vm_compute].
Defined.

(** * Further properties of the driver *)

(** ** Error paths *)

(** X1: when the allocation of the staging buffer for the chunk fails (the
    allocator answers NULL, or [count] is more than it serves), a write of
    at least one byte returns -ENOMEM with the mutex released and the world
    as it was. *)
Theorem write_staging_allocation_fails env ub count w :
  lock (dev w) = false → count ≠ 0 → lock_intr env = false →
  alloc1 env = None ∨ KMALLOC_MAX_SIZE < count →
  call (aesd_write env (Some ub) count) w = Some (- ENOMEM, w).
Proof. apply aesd_write_no_buffer. Qed.

Lemma write_staging_allocation_fails_witness :
  call (aesd_write starved_env (Some 3%positive) 7) sample_one
  = Some (- ENOMEM, sample_one).
Proof.
  apply (write_staging_allocation_fails starved_env 3%positive 7 sample_one).
  - reflexivity.
  - discriminate.
  - reflexivity.
  - by left.
Defined.

(** X2: when copying the chunk from the caller faults (the transfer fails,
    or the caller's buffer is not readable over [count] bytes), the write
    returns -EFAULT; the staging buffer is freed again and the mutex
    released, so the world is as it was. *)
Theorem write_transfer_faults env ub count a1 w :
  lock (dev w) = false → 0 < count ≤ KMALLOC_MAX_SIZE → lock_intr env = false →
  alloc1 env = Some a1 → kmem w !! a1 = None →
  ufault env = true
  ∨ (∀ data, umem w !! ub = Some data → Z.of_nat (length data) < count) →
  call (aesd_write env (Some ub) count) w = Some (- EFAULT, w).
Proof. apply aesd_write_transfer_fault. Qed.

Lemma write_transfer_faults_witness :
  call (aesd_write (faulting_env 20) (Some 3%positive) 7) sample_one
  = Some (- EFAULT, sample_one).
Proof.
  apply (write_transfer_faults (faulting_env 20) 3%positive 7 20%positive sample_one).
  - reflexivity.
  - by vm_compute.
  - reflexivity.
  - reflexivity.
  - by vm_compute.
  - by left.
Defined.

(** A file position inside the log resolves. *)
Lemma find_entry_inside w :
  wf w → 0 ≤ f_pos w < log_length (circular_buffer (dev w)) →
  ∃ i o e a blk,
    aesd_circular_buffer_find_entry_offset_for_fpos
      (circular_buffer (dev w)) (size_t (f_pos w)) = Some (i, o)
    ∧ i ∈ live_slots (circular_buffer (dev w))
    ∧ entry (circular_buffer (dev w)) !! i = Some e ∧ 0 ≤ o < size e
    ∧ buffptr e = Some a ∧ kmem w !! a = Some blk
    ∧ Z.of_nat (length blk) = size e.
Proof.
  intros Hwf Hpos. pose proof (wf_f_pos _ Hwf) as Hrange.
  rewrite size_t_small by lia.
  destruct (aesd_circular_buffer_find_entry_offset_for_fpos _ _) as [[i o]|] eqn:Hfind.
  - destruct (find_entry_Some _ _ _ _ Hwf (proj1 Hpos) Hfind)
      as (Hi & e & a & blk & He & Ho & Ha & Hblk & Hlen & _).
    by exists i, o, e, a, blk.
  - apply find_entry_None in Hfind; [lia|done|lia].
Qed.

(** A failing transfer may have reached the caller's buffer: with three
    bytes stored before the fault, the buffer holds them after the call. *)
Example read_fault_stores_prefix :
  call (aesd_read (faulting_env 20) (Some 4%positive) 16) sample_one
  = Some (- EFAULT,
          set_umem (<[4%positive := ["h"; "e"; "l"]%byte ++ replicate 13 x00]>
                      (umem sample_one)) sample_one).
Proof. by vm_compute. Qed.



(** ** What a call can return *)

(** The values [aesd_write] returns without having stored anything. *)
Lemma aesd_write_errno env buf count w r w' :
  wf w → kenv_ok env w → 0 ≤ count < 2 ^ 64 →
  call (aesd_write env buf count) w = Some (r, w') → r ≤ 0 →
  r = - EFAULT ∨ r = - ENOMEM ∨ r = - ERESTARTSYS ∨ (r = 0 ∧ count = 0).
Proof.
  intros Hwf (Hf1 & Hf2 & Hdist) Hc Hcall Hr.
  pose proof KMALLOC_MAX_SIZE_small as HK.
  pose proof (wf_unlocked _ Hwf) as Hl.
  pose proof (partial_write_size_bounds _ Hwf) as Hps.
  destruct buf as [ub|]; [|rewrite aesd_write_null in Hcall; left; congruence].
  destruct (decide (count = 0)) as [->|Hc0];
    [rewrite aesd_write_zero in Hcall; right; right; right; split; congruence|].
  destruct (lock_intr env) eqn:Hi.
  { rewrite aesd_write_interrupted in Hcall by done. right; right; left. congruence. }
  destruct (alloc1 env) as [a1|] eqn:Ha1; cycle 1.
  { rewrite aesd_write_no_buffer in Hcall by auto. right; left. congruence. }
  destruct (decide (count ≤ KMALLOC_MAX_SIZE)) as [Hcm|Hcm]; cycle 1.
  { rewrite aesd_write_no_buffer in Hcall by (auto; right; lia). right; left. congruence. }
  cbn [unallocated] in Hf1.
  assert (ufault env = true
          ∨ (∀ data, umem w !! ub = Some data → Z.of_nat (length data) < count)
          ∨ (ufault env = false
             ∧ ∃ data, umem w !! ub = Some data ∧ count ≤ Z.of_nat (length data)))
    as [Hflt|[Hflt|(Hf & data & Hu & Hlen)]].
  { destruct (ufault env); [by left|right].
    destruct (umem w !! ub) as [data|]; [|by left].
    destruct (decide (count ≤ Z.of_nat (length data))).
    - right. split; [done|]. by exists data.
    - left. intros ? [= <-]. lia. }
  1,2: erewrite aesd_write_transfer_fault in Hcall by (eauto; lia); left; congruence.
  destruct (decide (alloc2 env = None
                    ∨ KMALLOC_MAX_SIZE
                      < partial_write_size (dev w)
                        + Z.of_nat (accepted (take (Z.to_nat count) data))))
    as [Hfail|Hok].
  { erewrite aesd_write_no_grown_buffer in Hcall by (eauto; lia).
    right; left. congruence. }
  destruct (alloc2 env) as [a2|] eqn:Ha2; [|destruct Hok; by left].
  cbn [unallocated] in Hf2.
  assert (a1 ≠ a2) as Hne by (intros ->; by apply Hdist).
  assert (partial_write_size (dev w)
          + Z.of_nat (accepted (take (Z.to_nat count) data)) ≤ KMALLOC_MAX_SIZE) as Hsz.
  { destruct (decide (partial_write_size (dev w)
                      + Z.of_nat (accepted (take (Z.to_nat count) data))
                      ≤ KMALLOC_MAX_SIZE)); [done|]. destruct Hok. right. lia. }
  unfold accepted in Hsz.
  destruct (list_find _ _) as [[d x]|] eqn:Hfind.
  - erewrite aesd_write_command in Hcall by (eauto; lia).
    injection Hcall as <- _. lia.
  - rewrite length_take in Hsz.
    erewrite aesd_write_pending in Hcall by (eauto; lia).
    injection Hcall as <- _. lia.
Qed.

(** X4: from a well-formed world every write returns: no access outside a
    block, no double free, and the mutex is released.  It returns -EFAULT,
    -ENOMEM or -ERESTARTSYS, or a count between 0 and [count]; when it
    returns an error or 0 the world is as it was, it returns 0 only for
    [count = 0], and it never moves the file position or changes the
    caller's memory.  The world it leaves is well formed again. *)
Theorem write_outcome env buf count w :
  wf w → kenv_ok env w → 0 ≤ count < 2 ^ 64 →
  ∃ r w', call (aesd_write env buf count) w = Some (r, w')
    ∧ wf w' ∧ lock (dev w') = false
    ∧ umem w' = umem w ∧ f_pos w' = f_pos w
    ∧ (r = - EFAULT ∨ r = - ENOMEM ∨ r = - ERESTARTSYS ∨ 0 ≤ r ≤ count)
    ∧ (r ≤ 0 → w' = w) ∧ (r = 0 → count = 0).
Proof.
  intros Hwf Hok Hc.
  destruct (aesd_write_cases env buf count w Hwf Hok Hc) as (r & w' & Hcall & Hcases).
  pose proof (aesd_write_wf _ _ _ _ _ _ Hwf Hok Hc Hcall) as Hwf'.
  exists r, w'. split; [done|]. split; [done|]. split; [apply Hwf'|].
  destruct Hcases as [[Hr ->]|(ub & data & a & _ & _ & Hlen & _ & _ & _ & _ & _ & Hres)].
  - split_and!; [done..| |done|].
    + destruct (aesd_write_errno _ _ _ _ _ _ Hwf Hok Hc Hcall Hr)
        as [?|[?|[?|[? ?]]]]; auto. right; right; right. lia.
    + intros ->.
      destruct (aesd_write_errno _ _ _ _ _ _ Hwf Hok Hc Hcall Hr)
        as [?|[?|[?|[? ?]]]]; done.
  - destruct (list_find _ _) as [[d x]|] eqn:Hfind.
    + destruct Hres as (-> & -> & _).
      pose proof (list_find_bound _ _ _ Hfind) as Hd. rewrite length_take in Hd.
      split_and!; [done..| | |]; [right; right; right|..]; lia.
    + destruct Hres as (-> & -> & _).
      split_and!; [done..| | |]; [right; right; right|..]; lia.
Qed.

Lemma write_outcome_witness :
  ∃ r w', call (aesd_write (sample_env 200 201) (Some 3%positive) 7) sample_full
          = Some (r, w')
    ∧ wf w' ∧ lock (dev w') = false.
Proof.
  destruct (write_outcome (sample_env 200 201) (Some 3%positive) 7 sample_full)
    as (r & w' & Hcall & Hwf & Hl & _).
  - apply reachable_wf, sample_full_reachable.
  - apply sample_env_ok; by vm_compute.
  - lia.
  - exists r, w'. split_and!; [exact Hcall|exact Hwf|exact Hl].
Defined.

(** ** Every stored command is delimited *)

Lemma kept_live b e :
  e ∈ (if full b then drop 1 (live_entries b) else live_entries b) →
  e ∈ live_entries b.
Proof. destruct (full b); [apply subseteq_drop|done]. Qed.

(** The chunk up to and including its first newline is the bytes before it,
    which hold no newline, and the newline. *)
Lemma take_first_newline (chunk : list byte) d x :
  list_find (λ b, b = newline) chunk = Some (d, x) →
  take (S d) chunk = take d chunk ++ [newline] ∧ newline ∉ take d chunk.
Proof.
  intros Hfind. apply list_find_Some in Hfind as (Hd & -> & Hfirst).
  split; [by apply take_S_r|].
  intros Hin. apply list_elem_of_lookup in Hin as (j & Hj).
  pose proof (lookup_lt_Some _ _ _ Hj) as Hlt. rewrite length_take in Hlt.
  rewrite lookup_take_lt in Hj by lia. eapply Hfirst; [done|lia|done].
Qed.

Lemma delimited_command_world w a chunk d x :
  wf w → kmem w !! a = None → delimited w →
  list_find (λ b, b = newline) chunk = Some (d, x) →
  delimited (command_world w a chunk d).
Proof.
  intros Hwf Hn (Hpend & Hlive) Hfind.
  destruct (take_first_newline _ _ _ Hfind) as (Htake & Hbody).
  split.
  - unfold pending, command_world. wnorm. apply not_elem_of_nil.
  - intros e. unfold command_world. wnorm.
    rewrite live_entries_add_entry by apply Hwf.
    rewrite elem_of_app, list_elem_of_singleton. intros [He| ->].
    + rewrite entry_bytes_kept by done. by apply Hlive, kept_live.
    + unfold entry_bytes. cbn [buffptr]. rewrite lookup_insert_eq. simpl.
      exists (pending w ++ take d chunk). split.
      * by rewrite Htake, app_assoc.
      * rewrite elem_of_app. by intros [?|?].
Qed.

Lemma delimited_pending_world w a chunk :
  wf w → kmem w !! a = None → delimited w →
  list_find (λ b, b = newline) chunk = None →
  delimited (pending_world w a chunk).
Proof.
  intros Hwf Hn (Hpend & Hlive) Hfind.
  apply list_find_None in Hfind. rewrite Forall_forall in Hfind.
  split.
  - unfold pending at 1, pending_world. wnorm. rewrite lookup_insert_eq. simpl.
    rewrite elem_of_app. intros [?|Hin]; [done|]. by apply (Hfind _ Hin).
  - intros e He.
    assert (e ∈ live_entries (circular_buffer (dev w))) as He' by done.
    rewrite entry_bytes_pending_world by done. by apply Hlive.
Qed.

Lemma reachable_delimited w : reachable w → delimited w.
Proof.
  induction 1 as [u p Hp|w u p Hw IH Hp|w env buf count r w' Hw IH Hc Hcall
                 |w env buf count r w' Hw IH Hok Hc Hcall].
  - split; [apply not_elem_of_nil|]. intros e He. by apply elem_of_nil in He.
  - done.
  - pose proof (reachable_wf _ Hw) as Hwf.
    destruct (aesd_read_cases env buf count w Hwf ltac:(lia))
      as (r0 & w0 & Hcall0 & Hcases).
    rewrite Hcall in Hcall0. injection Hcall0 as <- <-.
    destruct Hcases as [[_ [u ->]]|(ub & old & i & o & e & a & blk & _ & _ & _ & _
                                 & _ & _ & _ & _ & _ & _ & ->)]; done.
  - pose proof (reachable_wf _ Hw) as Hwf.
    destruct (aesd_write_cases env buf count w Hwf Hok Hc)
      as (r0 & w0 & Hcall0 & Hcases).
    rewrite Hcall in Hcall0. injection Hcall0 as <- <-.
    destruct Hcases as [[_ ->]|(ub & data & a & _ & _ & _ & _ & _ & _ & _ & Hn & Hres)];
      [done|].
    destruct (list_find _ _) as [[d x]|] eqn:Hfind.
    + destruct Hres as (_ & -> & _). by eapply delimited_command_world.
    + destruct Hres as (_ & -> & _). by eapply delimited_pending_world.
Qed.

(** X5: in every world the driver can reach, each live entry is one
    command: its bytes end with the newline and hold no other newline, and
    the pending bytes hold no newline at all. *)
Theorem stored_commands_delimited w :
  reachable w →
  (newline ∉ pending w)
  ∧ (∀ e, e ∈ live_entries (circular_buffer (dev w)) →
       ∃ body, entry_bytes (kmem w) e = body ++ [newline] ∧ newline ∉ body).
Proof. apply reachable_delimited. Qed.

Lemma stored_commands_delimited_witness :
  (newline ∉ pending sample_full)
  ∧ (∀ e, e ∈ live_entries (circular_buffer (dev sample_full)) →
       ∃ body, entry_bytes (kmem sample_full) e = body ++ [newline] ∧ newline ∉ body).
Proof. exact (stored_commands_delimited sample_full sample_full_reachable). Defined.

(** ** Nothing leaks *)

Lemma tidy_init u p :
  tidy {| kmem := ∅; umem := u; dev := aesd_init_module; f_pos := p |}.
Proof.
  split; wnorm.
  - intros a [blk Hblk]. by rewrite lookup_empty in Hblk.
  - intros i e He _. do 10 (destruct i as [|i]; [by injection He as <-|]). done.
Qed.

Lemma tidy_pending_world w a chunk :
  wf w → tidy w → tidy (pending_world w a chunk).
Proof.
  intros Hwf (Hown & Hspare). split; [|done].
  intros a'. unfold pending_world, owned. wnorm.
  destruct (decide (a' = a)) as [->|Hne]; [by left|].
  rewrite lookup_insert_ne by done. intros Hsome.
  assert (is_Some (kmem w !! a') ∧ partial_write_buffer (dev w) ≠ Some a') as (Hk & Hpb).
  { destruct (partial_write_buffer (dev w)) as [pb|]; [|done].
    cbn [release] in Hsome. apply lookup_delete_is_Some in Hsome as (? & ?).
    split; [done|congruence]. }
  destruct (Hown _ Hk) as [?|?]; [done|by right].
Qed.

Lemma tidy_command_world w a chunk d :
  wf w → tidy w → tidy (command_world w a chunk d).
Proof.
  intros Hwf (Hown & Hspare).
  pose proof (wf_slots _ Hwf) as Hslots. pose proof (wf_in_offs _ Hwf) as Hio.
  split; unfold command_world, owned; wnorm;
    cbn [aesd_circular_buffer_add_entry entry].
  - intros a'. destruct (decide (a' = a)) as [->|Hne].
    { intros _. right. eexists (in_offs _), _. split_and!.
      - apply live_slots_add_entry; [done|by left].
      - apply list_lookup_insert_eq. lia.
      - done. }
    rewrite lookup_insert_ne by done. intros Hsome.
    set (h1 := release (partial_write_buffer (dev w)) (kmem w)) in *.
    assert (is_Some (h1 !! a')
            ∧ evicted (circular_buffer (dev w)) ≫= buffptr ≠ Some a') as (Hh1 & Hev).
    { destruct (evicted _ ≫= buffptr) as [p|]; [|done].
      cbn [release] in Hsome. apply lookup_delete_is_Some in Hsome as (? & ?).
      split; [done|congruence]. }
    assert (is_Some (kmem w !! a') ∧ partial_write_buffer (dev w) ≠ Some a') as (Hk & Hpb).
    { unfold h1 in Hh1. destruct (partial_write_buffer (dev w)) as [pb|]; [|done].
      cbn [release] in Hh1. apply lookup_delete_is_Some in Hh1 as (? & ?).
      split; [done|congruence]. }
    destruct (Hown _ Hk) as [?|(i & e & Hi & He & Hp)]; [done|].
    assert (i ≠ in_offs (circular_buffer (dev w))) as Hni.
    { intros ->. unfold evicted in Hev.
      apply elem_of_live_slots in Hi; [|done].
      destruct (full _); [|lia]. rewrite He in Hev. cbn in Hev. congruence. }
    right. exists i, e. split_and!; [|by rewrite list_lookup_insert_ne|done].
    apply live_slots_add_entry; [done|by right].
  - intros i e He Hi.
    assert (i ≠ in_offs (circular_buffer (dev w))
            ∧ i ∉ live_slots (circular_buffer (dev w))) as (Hni & Hnl).
    { split; intros ?; apply Hi, live_slots_add_entry; auto. }
    rewrite list_lookup_insert_ne in He by done. by eapply Hspare.
Qed.

Lemma reachable_tidy w : reachable w → tidy w.
Proof.
  induction 1 as [u p Hp|w u p Hw IH Hp|w env buf count r w' Hw IH Hc Hcall
                 |w env buf count r w' Hw IH Hok Hc Hcall].
  - apply tidy_init.
  - done.
  - pose proof (reachable_wf _ Hw) as Hwf.
    destruct (aesd_read_cases env buf count w Hwf ltac:(lia))
      as (r0 & w0 & Hcall0 & Hcases).
    rewrite Hcall in Hcall0. injection Hcall0 as <- <-.
    destruct Hcases as [[_ [u ->]]|(ub & old & i & o & e & a & blk & _ & _ & _ & _
                                 & _ & _ & _ & _ & _ & _ & ->)]; done.
  - pose proof (reachable_wf _ Hw) as Hwf.
    destruct (aesd_write_cases env buf count w Hwf Hok Hc)
      as (r0 & w0 & Hcall0 & Hcases).
    rewrite Hcall in Hcall0. injection Hcall0 as <- <-.
    destruct Hcases as [[_ ->]|(ub & data & a & _ & _ & _ & _ & _ & _ & _ & Hn & Hres)];
      [done|].
    destruct (list_find _ _) as [[d x]|] eqn:Hfind.
    + destruct Hres as (_ & -> & _). by apply tidy_command_world.
    + destruct Hres as (_ & -> & _). by apply tidy_pending_world.
Qed.

(** X6: in every world the driver can reach, the blocks allocated in the
    kernel heap are exactly the block of the pending buffer and the blocks
    of the live entries: neither call leaks a block (the staging buffer, a
    replaced pending buffer, an evicted entry) nor leaves an entry or the
    pending buffer pointing to freed memory. *)
Theorem heap_is_owned w a :
  reachable w →
  is_Some (kmem w !! a)
  ↔ partial_write_buffer (dev w) = Some a
    ∨ ∃ e, e ∈ live_entries (circular_buffer (dev w)) ∧ buffptr e = Some a.
Proof.
  intros Hw. pose proof (reachable_wf _ Hw) as Hwf.
  destruct (reachable_tidy _ Hw) as (Hown & _). split.
  - intros Hsome. destruct (Hown _ Hsome) as [?|(i & e & Hi & He & Hp)]; [by left|].
    right. exists e. split; [|done]. apply list_elem_of_omap. by exists i.
  - intros [Hpb|(e & He & Hp)].
    + destruct (wf_partial _ Hwf) as [[Hnone _]|(a' & blk & Ha' & Hblk & _)];
        [congruence|]. assert (a' = a) as -> by congruence. by exists blk.
    + apply list_elem_of_omap in He as (i & Hi & He).
      destruct (wf_live _ Hwf _ _ Hi He) as (a' & blk & Ha' & Hblk & _).
      assert (a' = a) as -> by congruence. by exists blk.
Qed.

Lemma heap_is_owned_witness :
  is_Some (kmem sample_both !! 31%positive)
  ↔ partial_write_buffer (dev sample_both) = Some 31%positive
    ∨ ∃ e, e ∈ live_entries (circular_buffer (dev sample_both))
           ∧ buffptr e = Some 31%positive.
Proof.
  apply (heap_is_owned sample_both 31%positive).
  apply after_write_reachable;
    [apply sample_one_reachable|by vm_compute..|done|done].
Defined.

(** ** Module shutdown *)

Lemma freed_slots_None slots visit (h : heap) a :
  h !! a = None → freed_slots slots visit h !! a = None.
Proof.
  unfold freed_slots. revert h. induction visit as [|i visit IH]; intros h Hn; [done|].
  cbn [foldl]. apply IH. destruct (slots !! i ≫= buffptr) as [p|]; [|done].
  cbn [release]. rewrite lookup_delete. by case_decide.
Qed.

Lemma freed_slots_freed slots visit (h : heap) i e a :
  i ∈ visit → slots !! i = Some e → buffptr e = Some a →
  freed_slots slots visit h !! a = None.
Proof.
  unfold freed_slots. revert h.
  induction visit as [|j visit IH]; intros h Hi He Ha; [by apply elem_of_nil in Hi|].
  cbn [foldl]. apply elem_of_cons in Hi as [<-|Hi]; [|by eapply IH].
  rewrite He. cbn [mbind option_bind]. rewrite Ha. cbn [release].
  apply (freed_slots_None slots visit). apply lookup_delete_eq.
Qed.

Lemma free_slots_run slots visit w :
  NoDup visit →
  (∀ i, i ∈ visit → is_Some (slots !! i)) →
  (∀ i e p, i ∈ visit → slots !! i = Some e → buffptr e = Some p →
            is_Some (kmem w !! p)) →
  (∀ i j ei ej p, i ∈ visit → j ∈ visit →
     slots !! i = Some ei → slots !! j = Some ej →
     buffptr ei = Some p → buffptr ej = Some p → i = j) →
  free_slots slots visit w
  = Next tt (set_kmem (freed_slots slots visit (kmem w)) w).
Proof.
  revert w. induction visit as [|i visit IH]; intros w Hnd Hall Hlive Hsep.
  { by destruct w. }
  apply NoDup_cons in Hnd as (Hni & Hnd).
  destruct (Hall i) as [e He]; [left|].
  cbn [free_slots]. rewrite He. unfold freed_slots. cbn [foldl]. rewrite He.
  cbn [mbind option_bind].
  assert (∀ w1, kmem w1 = release (buffptr e) (kmem w) →
            free_slots slots visit w1
            = Next tt (set_kmem (freed_slots slots visit (kmem w1)) w1)) as Hrest.
  { intros w1 Hk. apply IH; [done| | |].
    - intros j Hj. apply Hall. by right.
    - intros j ej p Hj Hej Hp. rewrite Hk.
      destruct (Hlive j ej p) as [blk Hblk]; [by right|done..|].
      destruct (buffptr e) as [q|] eqn:Hq; [|by exists blk].
      cbn [release]. rewrite lookup_delete_ne; [by exists blk|].
      intros ->. apply Hni.
      by rewrite (Hsep i j e ej p ltac:(left) ltac:(by right) He Hej Hq Hp).
    - intros j1 j2 e1 e2 p Hj1 Hj2. apply Hsep; by right. }
  destruct (buffptr e) as [p|] eqn:Hp.
  - destruct (Hlive i e p) as [blk Hblk]; [left|done..|].
    erewrite bind_Next by (by eapply kfree_block). cbn beta.
    rewrite Hrest by done. done.
  - erewrite bind_Next by reflexivity. cbn beta. rewrite Hrest by done.
    by destruct w.
Qed.

(** X7: module shutdown, run in a world the driver can reach with a loop
    that visits every live slot once (and any other slot at most once),
    frees the pending buffer and the block of every live entry, each exactly
    once: nothing is left allocated, the pending buffer is NULL with size
    0, and the mutex is released. *)
Theorem cleanup_frees_everything visit w :
  reachable w → NoDup visit →
  (∀ i, i ∈ visit → (i < AESDCHAR_MAX_WRITE_OPERATIONS_SUPPORTED)%nat) →
  (∀ i, i ∈ live_slots (circular_buffer (dev w)) → i ∈ visit) →
  call_void (aesd_cleanup_module visit) w
  = Some (set_dev (set_partial None 0 (dev w)) (set_kmem ∅ w)).
Proof.
  intros Hw Hnd Hrange Hcover.
  pose proof (reachable_wf _ Hw) as Hwf. destruct (reachable_tidy _ Hw) as (Hown & Hspare).
  pose proof (wf_unlocked _ Hwf) as Hl. pose proof (wf_slots _ Hwf) as Hslots.
  set (h1 := release (partial_write_buffer (dev w)) (kmem w)).
  assert (∀ i e p, entry (circular_buffer (dev w)) !! i = Some e →
            buffptr e = Some p →
            i ∈ live_slots (circular_buffer (dev w))) as Hlive.
  { intros i e p He Hp.
    destruct (decide (i ∈ live_slots (circular_buffer (dev w)))) as [|Hn]; [done|].
    rewrite (Hspare _ _ He Hn) in Hp. done. }
  assert (∀ w1, kmem w1 = h1 → circular_buffer (dev w1) = circular_buffer (dev w) →
            free_slots (entry (circular_buffer (dev w))) visit w1
            = Next tt (set_kmem ∅ w1)) as Hloop.
  { intros w1 Hk Hcb. rewrite free_slots_run; [| done | | |].
    - f_equal. f_equal. apply map_eq. intros a. rewrite lookup_empty, Hk.
      destruct (kmem w !! a) as [blk|] eqn:Hblk.
      + destruct (Hown a) as [Hpb|(i & e & Hi & He & Hp)]; [by exists blk| |].
        * apply freed_slots_None. unfold h1. rewrite Hpb. apply lookup_delete_eq.
        * eapply freed_slots_freed; [by apply Hcover|done..].
      + apply freed_slots_None. unfold h1.
        destruct (partial_write_buffer (dev w)); [|done].
        cbn [release]. rewrite lookup_delete. by case_decide.
    - intros i Hi. apply lookup_lt_is_Some. rewrite Hslots. by apply Hrange.
    - intros i e p _ He Hp. rewrite Hk. unfold h1.
      pose proof (Hlive _ _ _ He Hp) as Hi.
      destruct (wf_live _ Hwf _ _ Hi He) as (p' & blk & Hp' & Hblk & _).
      assert (p' = p) as -> by congruence.
      destruct (partial_write_buffer (dev w)) as [pb|] eqn:Hpb; [|by exists blk].
      cbn [release]. rewrite lookup_delete_ne; [by exists blk|]. intros ->.
      eapply (wf_partial_sep _ Hwf _ _ Hi He); [by rewrite Hpb|congruence].
    - intros i j ei ej p _ _ Hei Hej Hpi Hpj.
      eapply (wf_sep _ Hwf); [by eapply Hlive|by eapply Hlive|done..|congruence]. }
  destruct (wf_partial _ Hwf) as [[Hnone Hzero]|(pb & blk & Hpb & Hblk & _)].
  - unfold call_void, aesd_cleanup_module, mutex_lock.
    destruct w as [h u [cb pbuf ps lk] fp]. wsimpl. subst.
    unfold bind at 1. wnorm. kpure. kpure. kpure.
    erewrite bind_Next by (by apply Hloop). cbn beta. by wnorm.
  - unfold call_void, aesd_cleanup_module, mutex_lock.
    destruct w as [h u [cb pbuf ps lk] fp]. wsimpl. subst.
    unfold bind at 1. wnorm. kpure. rewrite bind_bind.
    kstep kfree_block. kpure. kpure.
    erewrite bind_Next by (by apply Hloop). cbn beta. by wnorm.
Qed.

Lemma cleanup_frees_everything_witness :
  call_void (aesd_cleanup_module (seq 0 10)) sample_both
  = Some (set_dev (set_partial None 0 (dev sample_both)) (set_kmem ∅ sample_both)).
Proof.
  apply (cleanup_frees_everything (seq 0 10) sample_both).
  - apply after_write_reachable;
      [apply sample_one_reachable|by vm_compute..|done|done].
  - apply NoDup_seq.
  - intros i Hi. apply elem_of_seq in Hi.
    unfold AESDCHAR_MAX_WRITE_OPERATIONS_SUPPORTED. lia.
  - intros i Hi. vm_compute in Hi. apply list_elem_of_singleton in Hi as ->.
    by left.
Defined.

(** ** Reading follows the logical stream *)

(** The bytes of the entries in the slots [ids], in that order. *)
Lemma length_stream (h : heap) (slots : list aesd_buffer_entry) ids :
  (∀ j e, j ∈ ids → slots !! j = Some e →
     Z.of_nat (length (entry_bytes h e)) = size e) →
  Z.of_nat (length (concat (entry_bytes h <$> omap (λ i, slots !! i) ids)))
  = foldr (λ e n, size e + n) 0 (omap (λ i, slots !! i) ids).
Proof.
  induction ids as [|j ids IH]; intros Hlen; [done|].
  cbn [omap list_omap].
  assert (∀ j' e, j' ∈ ids → slots !! j' = Some e →
            Z.of_nat (length (entry_bytes h e)) = size e) as Hlen'.
  { intros j' e Hj'. apply Hlen. by right. }
  destruct (slots !! j) as [e|] eqn:He; [|by apply IH].
  cbn [fmap list_fmap concat foldr]. rewrite length_app, Nat2Z.inj_add.
  rewrite (Hlen j e ltac:(left) He), IH by done. done.
Qed.

Lemma entry_bytes_length w j e :
  wf w → j ∈ live_slots (circular_buffer (dev w)) →
  entry (circular_buffer (dev w)) !! j = Some e →
  Z.of_nat (length (entry_bytes (kmem w) e)) = size e.
Proof.
  intros Hwf Hj He. destruct (wf_live _ Hwf _ _ Hj He) as (a & blk & Ha & Hblk & Hlen & _).
  unfold entry_bytes. by rewrite Ha, Hblk.
Qed.

Lemma length_log_stream w :
  wf w → Z.of_nat (length (log_stream w)) = log_length (circular_buffer (dev w)).
Proof.
  intros Hwf. apply length_stream. intros j e. by apply entry_bytes_length.
Qed.

(** Where resolution stops, the stream goes on with the rest of the entry
    it found. *)
Lemma find_entry_from_drop (h : heap) slots ids acc char_offset i o e :
  (∀ j ej, j ∈ ids → slots !! j = Some ej →
     Z.of_nat (length (entry_bytes h ej)) = size ej) →
  acc ≤ char_offset →
  find_entry_from slots ids acc char_offset = Some (i, o) →
  slots !! i = Some e →
  ∃ rest,
    drop (Z.to_nat (char_offset - acc))
      (concat (entry_bytes h <$> omap (λ i, slots !! i) ids))
    = drop (Z.to_nat o) (entry_bytes h e) ++ rest.
Proof.
  revert acc. induction ids as [|j ids IH]; intros acc Hlen Hacc Hfind He; [done|].
  cbn [find_entry_from] in Hfind. cbn [omap list_omap].
  destruct (slots !! j) as [ej|] eqn:Hej; [|done].
  pose proof (Hlen j ej ltac:(left) Hej) as Hj.
  cbn [fmap list_fmap concat].
  destruct (Z.ltb_spec char_offset (acc + size ej)).
  - injection Hfind as <- <-. assert (ej = e) as -> by congruence.
    eexists. apply drop_app_le. lia.
  - destruct (IH (acc + size ej)) as (rest & Hrest); [|lia|done..|].
    { intros j' e' Hj'. apply Hlen. by right. }
    exists rest. rewrite drop_app_ge by lia. rewrite <- Hrest. f_equal. lia.
Qed.

(** A read at a position inside the log, with room in the caller's buffer,
    delivers the next bytes of the logical stream. *)
Lemma aesd_read_stream env ub count old w :
  wf w → 0 < count → lock_intr env = false → ufault env = false →
  0 ≤ f_pos w < log_length (circular_buffer (dev w)) →
  umem w !! ub = Some old → count ≤ Z.of_nat (length old) →
  ∃ n w' new,
    call (aesd_read env (Some ub) count) w = Some (n, w')
    ∧ 0 < n ≤ count
    ∧ umem w' !! ub = Some new ∧ length new = length old
    ∧ take (Z.to_nat n) new
      = take (Z.to_nat n) (drop (Z.to_nat (f_pos w)) (log_stream w))
    ∧ f_pos w' = f_pos w + n
    ∧ f_pos w' ≤ log_length (circular_buffer (dev w))
    ∧ dev w' = dev w ∧ kmem w' = kmem w ∧ wf w'.
Proof.
  intros Hwf Hc Hi Hf Hpos Hu Hroom.
  destruct (find_entry_inside _ Hwf Hpos)
    as (i & o & e & a & blk & Hfind & Hlive & He & Ho & Ha & Hblk & Hlen).
  pose proof (wf_f_pos _ Hwf) as Hrange.
  set (n := Z.min count (size e - o)).
  assert (call (aesd_read env (Some ub) count) w
          = Some (n, read_world w ub old blk o n)) as Hcall.
  { eapply aesd_read_entry; eauto; lia. }
  assert (entry_bytes (kmem w) e = blk) as Hbytes.
  { unfold entry_bytes. by rewrite Ha, Hblk. }
  pose proof Hfind as Hfind'. rewrite size_t_small in Hfind' by lia.
  destruct (find_entry_from_drop (kmem w) _ _ 0 (f_pos w) i o e
              ltac:(intros j ej; by apply entry_bytes_length)
              ltac:(lia) Hfind' He) as (rest & Hrest).
  rewrite Z.sub_0_r, Hbytes in Hrest. fold (live_entries (circular_buffer (dev w))) in Hrest.
  fold (log_stream w) in Hrest.
  exists n, (read_world w ub old blk o n),
    (take (Z.to_nat n) (drop (Z.to_nat o) blk) ++ drop (Z.to_nat n) old).
  split_and!.
  - done.
  - lia.
  - lia.
  - unfold read_world. wnorm. apply lookup_insert_eq.
  - rewrite length_app, length_take, !length_drop. lia.
  - rewrite take_app_le by (rewrite length_take, length_drop; lia).
    rewrite take_take, Nat.min_id, Hrest.
    rewrite take_app_le by (rewrite length_drop; lia). done.
  - done.
  - unfold read_world. wnorm.
    pose proof (length_log_stream _ Hwf) as Hstream.
    apply (f_equal length) in Hrest.
    rewrite length_app, !length_drop in Hrest. lia.
  - done.
  - done.
  - by eapply aesd_read_wf; [| |exact Hcall]; [|lia].
Qed.

(** X8: a read of at least one byte at a position inside the log, with
    room for [count] bytes in the caller's buffer, returns between 1 and
    [count] bytes; they are the bytes of the logical stream (the live
    entries' bytes, oldest first) that start at the file position, and the
    new position is still within the log. *)
Theorem read_follows_stream env ub count old w :
  wf w → 0 < count → lock_intr env = false → ufault env = false →
  0 ≤ f_pos w < log_length (circular_buffer (dev w)) →
  umem w !! ub = Some old → count ≤ Z.of_nat (length old) →
  ∃ n w',
    call (aesd_read env (Some ub) count) w = Some (n, w')
    ∧ 0 < n ≤ count
    ∧ take (Z.to_nat n) <$> umem w' !! ub
      = Some (take (Z.to_nat n) (drop (Z.to_nat (f_pos w)) (log_stream w)))
    ∧ f_pos w' = f_pos w + n
    ∧ f_pos w' ≤ log_length (circular_buffer (dev w)).
Proof.
  intros Hwf Hc Hi Hf Hpos Hu Hroom.
  destruct (aesd_read_stream env ub count old w Hwf Hc Hi Hf Hpos Hu Hroom)
    as (n & w' & new & Hcall & Hn & Hnew & _ & Htake & Hp & Hend & _).
  exists n, w'. split_and!; [done|lia|lia| |done|done].
  rewrite Hnew. cbn. by rewrite Htake.
Qed.

Lemma read_follows_stream_witness :
  ∃ n w',
    call (aesd_read (sample_env 1 2) (Some 4%positive) 16)
      (set_f_pos 14 (set_umem sample_umem (sample_more 1 sample_one)))
    = Some (n, w')
    ∧ 0 < n ≤ 16.
Proof.
  destruct (read_follows_stream (sample_env 1 2) 4%positive 16 (replicate 16 x00)
              (set_f_pos 14 (set_umem sample_umem (sample_more 1 sample_one))))
    as (n & w' & Hcall & Hn & _).
  - apply reachable_wf, reach_caller; [|lia].
    apply (after_write_reachable _ _ _ _ sample_one);
      [apply sample_one_reachable|by vm_compute..|done|done].
  - lia.
  - reflexivity.
  - reflexivity.
  - by vm_compute.
  - by vm_compute.
  - by vm_compute.
  - exists n, w'. split; [exact Hcall|exact Hn].
Defined.

(** X9: a caller that starts at a position within the log and reads again
    and again, at least one byte at a time into a buffer with room for
    them, until a read returns 0, has read the logical stream from its
    starting position to the end: from position 0, the bytes of all live
    entries, oldest first.  Each read returns something, so as many reads
    as bytes remain (and one more) are enough. *)
Theorem read_all_drains fuel env ub count old w :
  wf w → 0 < count → lock_intr env = false → ufault env = false →
  umem w !! ub = Some old → count ≤ Z.of_nat (length old) →
  0 ≤ f_pos w →
  log_length (circular_buffer (dev w)) - f_pos w < Z.of_nat fuel →
  read_all fuel env ub count w = drop (Z.to_nat (f_pos w)) (log_stream w).
Proof.
  revert old w. induction fuel as [|fuel IH]; intros old w Hwf Hc Hi Hf Hu Hroom Hp Hfuel.
  { pose proof (length_log_stream _ Hwf). rewrite drop_ge by lia. done. }
  pose proof (length_log_stream _ Hwf) as Hlen.
  cbn [read_all].
  destruct (decide (f_pos w < log_length (circular_buffer (dev w)))) as [Hin|Hout].
  - destruct (aesd_read_stream env ub count old w Hwf Hc Hi Hf ltac:(lia) Hu Hroom)
      as (n & w' & new & Hcall & Hn & Hnew & Hnewlen & Htake & Hp' & Hend & Hdev & Hkmem & Hwf').
    rewrite Hcall. destruct (Z.ltb_spec 0 n); [|lia].
    rewrite Hnew. cbn [default]. simpl. rewrite Htake.
    rewrite (IH new w') by (rewrite ?Hdev, ?Hnewlen; try done; lia).
    assert (log_stream w' = log_stream w) as -> by (unfold log_stream; by rewrite Hdev, Hkmem).
    rewrite Hp', Z2Nat.inj_add, <- drop_drop by lia.
    apply take_drop.
  - rewrite aesd_read_eof; [| apply Hwf | done |].
    + cbn. rewrite drop_ge by lia. done.
    + pose proof (wf_f_pos _ Hwf). rewrite size_t_small by lia.
      apply find_entry_None; [done|lia|lia].
Qed.

Lemma read_all_drains_witness :
  read_all 17 (sample_env 1 2) 4 16 (sample_more 1 sample_one)
  = drop (Z.to_nat 0) (log_stream (sample_more 1 sample_one)).
Proof.
  apply (read_all_drains 17 (sample_env 1 2) 4%positive 16 (replicate 16 x00)
           (sample_more 1 sample_one)).
  - apply reachable_wf.
    apply (after_write_reachable _ _ _ _ sample_one);
      [apply sample_one_reachable|by vm_compute..|done|done].
  - lia.
  - reflexivity.
  - reflexivity.
  - by vm_compute.
  - by vm_compute.
  - by vm_compute.
  - by vm_compute.
Defined.

(** ** A command that was written can be read back *)

Lemma live_slots_add_entry_last e b :
  (in_offs b < AESDCHAR_MAX_WRITE_OPERATIONS_SUPPORTED)%nat →
  live_slots (aesd_circular_buffer_add_entry e b)
  = (if full b then drop 1 (live_slots b) else live_slots b) ++ [in_offs b].
Proof.
  destruct b as [es io fl]. unfold AESDCHAR_MAX_WRITE_OPERATIONS_SUPPORTED.
  cbn [in_offs full]. intros Hio.
  do 10 (destruct io as [|io]; [by destruct fl|]). lia.
Qed.

Lemma sum_sizes_app (l k : list aesd_buffer_entry) :
  foldr (λ e n, size e + n) 0 (l ++ k)
  = foldr (λ e n, size e + n) 0 l + foldr (λ e n, size e + n) 0 k.
Proof. induction l as [|e l IH]; cbn [app foldr]; lia. Qed.

(** Resolution walks past the slots whose entries end at or before the
    offset. *)
Lemma find_entry_from_app slots ids1 ids2 acc char_offset :
  (∀ j, j ∈ ids1 → is_Some (slots !! j)) →
  (∀ j e, j ∈ ids1 → slots !! j = Some e → 0 ≤ size e) →
  acc + foldr (λ e n, size e + n) 0 (omap (λ i, slots !! i) ids1) ≤ char_offset →
  find_entry_from slots (ids1 ++ ids2) acc char_offset
  = find_entry_from slots ids2
      (acc + foldr (λ e n, size e + n) 0 (omap (λ i, slots !! i) ids1)) char_offset.
Proof.
  revert acc. induction ids1 as [|j ids1 IH]; intros acc Hall Hpos Hle.
  { cbn. f_equal. lia. }
  destruct (Hall j) as [e He]; [left|].
  assert (∀ j' e', j' ∈ ids1 → slots !! j' = Some e' → 0 ≤ size e') as Hpos'.
  { intros j' e' Hj'. apply Hpos. by right. }
  pose proof (sum_sizes_nonneg slots ids1 Hpos') as Hrest.
  cbn [app find_entry_from omap list_omap] in *. rewrite He in *. cbn [foldr] in *.
  destruct (Z.ltb_spec char_offset (acc + size e)); [lia|].
  rewrite IH; [f_equal; lia| |done|lia]. intros j' Hj'. apply Hall. by right.
Qed.

(** The entry ingested last starts where the older entries end. *)
Lemma find_last_entry e b :
  length (entry b) = AESDCHAR_MAX_WRITE_OPERATIONS_SUPPORTED →
  (in_offs b < AESDCHAR_MAX_WRITE_OPERATIONS_SUPPORTED)%nat →
  (∀ j ej, j ∈ live_slots b → entry b !! j = Some ej → 0 ≤ size ej) →
  0 < size e →
  aesd_circular_buffer_find_entry_offset_for_fpos
    (aesd_circular_buffer_add_entry e b)
    (log_length (aesd_circular_buffer_add_entry e b) - size e)
  = Some (in_offs b, 0).
Proof.
  intros Hlen Hio Hpos He.
  unfold aesd_circular_buffer_find_entry_offset_for_fpos, log_length, live_entries.
  rewrite live_slots_add_entry_last by done.
  set (kept := if full b then drop 1 (live_slots b) else live_slots b).
  assert (∀ j, j ∈ kept → j ∈ live_slots b) as Hkept.
  { intros j. unfold kept. destruct (full b); [apply subseteq_drop|done]. }
  cbn [aesd_circular_buffer_add_entry entry].
  set (slots := <[in_offs b := e]> (entry b)).
  assert (slots !! in_offs b = Some e) as Hnew.
  { apply list_lookup_insert_eq. lia. }
  assert (∀ j, j ∈ kept → is_Some (slots !! j)) as Hall.
  { intros j Hj. apply lookup_lt_is_Some. unfold slots. rewrite length_insert, Hlen.
    apply Hkept, elem_of_live_slots in Hj; [|done]. destruct (full b); lia. }
  assert (∀ j ej, j ∈ kept → slots !! j = Some ej → 0 ≤ size ej) as Hpos'.
  { intros j ej Hj Hej. destruct (decide (j = in_offs b)) as [->|Hne].
    - assert (ej = e) as -> by congruence. lia.
    - unfold slots in Hej. rewrite list_lookup_insert_ne in Hej by done.
      eapply Hpos; [by apply Hkept|done]. }
  rewrite omap_app, sum_sizes_app. cbn [omap list_omap]. rewrite Hnew. cbn [foldr].
  rewrite find_entry_from_app; [|done..|lia].
  cbn [find_entry_from]. rewrite Hnew.
  destruct (Z.ltb_spec
              (foldr (λ e n, size e + n) 0 (omap (λ i, slots !! i) kept) + (size e + 0) - size e)
              (0 + foldr (λ e n, size e + n) 0 (omap (λ i, slots !! i) kept) + size e));
    [|lia].
  do 2 f_equal. lia.
Qed.

Lemma kept_sizes_nonneg w :
  wf w →
  0 ≤ foldr (λ e n, size e + n) 0
        (if full (circular_buffer (dev w))
         then drop 1 (live_entries (circular_buffer (dev w)))
         else live_entries (circular_buffer (dev w))).
Proof.
  intros Hwf.
  assert (∀ e, e ∈ (if full (circular_buffer (dev w))
                    then drop 1 (live_entries (circular_buffer (dev w)))
                    else live_entries (circular_buffer (dev w))) → 0 ≤ size e) as Hpos.
  { intros e He. apply kept_live, list_elem_of_omap in He as (i & Hi & He).
    by eapply live_sizes_nonneg. }
  induction (if full _ then _ else _) as [|e l IH]; [done|].
  cbn [foldr]. pose proof (Hpos e ltac:(left)).
  assert (0 ≤ foldr (λ e n, size e + n) 0 l); [|lia].
  apply IH. intros e' He'. apply Hpos. by right.
Qed.

(** X10: after a write completed a command, a read at the position where
    the log's last entry starts (the log's total length less the command's
    length), with room for the command in the caller's buffer, returns
    exactly the command: the bytes that were pending followed by the chunk
    up to and including its first newline. *)
Theorem written_command_reads_back env ub data count a d x env' rb old count' w :
  wf w → kenv_ok env w → write_granted env w ub data count a →
  list_find (λ b, b = newline) (take (Z.to_nat count) data) = Some (d, x) →
  lock_intr env' = false → ufault env' = false →
  umem w !! rb = Some old →
  let command := pending w ++ take (S d) (take (Z.to_nat count) data) in
  let w1 := command_world w a (take (Z.to_nat count) data) d in
  let start := log_length (circular_buffer (dev w1)) - Z.of_nat (length command) in
  Z.of_nat (length command) ≤ count' →
  Z.of_nat (length command) ≤ Z.of_nat (length old) →
  call (aesd_write env (Some ub) count) w = Some (Z.of_nat d + 1, w1)
  ∧ ∃ w2,
      call (aesd_read env' (Some rb) count') (set_f_pos start w1)
      = Some (Z.of_nat (length command), w2)
      ∧ take (length command) <$> umem w2 !! rb = Some command.
Proof.
  intros Hwf Hok Hg Hfind Hi' Hf' Hu command w1 start Hcount Hroom.
  pose proof (aesd_write_command_world _ _ _ _ _ _ _ _ Hwf Hok Hg Hfind) as Hcall.
  split; [done|].
  destruct (write_granted_fresh _ _ _ _ _ _ Hok Hg) as (a1 & Ha1 & Hn1 & Hn2 & Hne).
  pose proof (list_find_bound _ _ _ Hfind) as Hd.
  pose proof (length_pending _ Hwf) as Hpend.
  pose proof (partial_write_size_bounds _ Hwf) as Hps.
  pose proof KMALLOC_MAX_SIZE_small as HK.
  assert (partial_write_size (dev w) + Z.of_nat d + 1 ≤ KMALLOC_MAX_SIZE) as Hsz.
  { destruct Hg as (_ & _ & _ & _ & _ & _ & _ & Hsz).
    unfold accepted in Hsz. rewrite Hfind in Hsz. lia. }
  assert (Z.of_nat (length command) = partial_write_size (dev w) + Z.of_nat d + 1) as Hlen.
  { unfold command. rewrite length_app, length_take. lia. }
  assert (wf w1) as Hwf1 by (by apply wf_command_world).
  pose proof (log_length_bound _ Hwf1) as Hbound.
  set (new := {| buffptr := Some a;
                 size := partial_write_size (dev w) + Z.of_nat d + 1 |}).
  assert (aesd_circular_buffer_find_entry_offset_for_fpos
            (circular_buffer (dev w1)) start = Some (in_offs (circular_buffer (dev w)), 0))
    as Hres.
  { unfold start. rewrite Hlen. unfold w1, command_world. wnorm.
    apply (find_last_entry new); [apply Hwf..| |cbn; lia].
    intros j ej. by apply live_sizes_nonneg. }
  assert (0 ≤ start) as Hstart.
  { unfold start. rewrite Hlen. unfold w1, command_world, log_length. wnorm.
    rewrite live_entries_add_entry, sum_sizes_app by apply Hwf. cbn [foldr size].
    pose proof (kept_sizes_nonneg _ Hwf). lia. }
  set (w1s := set_f_pos start w1).
  assert (wf w1s) as Hwf1s.
  { destruct Hwf1. split; unfold w1s; wnorm; try done. lia. }
  assert (entry (circular_buffer (dev w1s)) !! in_offs (circular_buffer (dev w))
          = Some new) as Hentry.
  { unfold w1s, w1, command_world. wnorm. cbn [aesd_circular_buffer_add_entry entry].
    apply list_lookup_insert_eq. rewrite (wf_slots _ Hwf). apply Hwf. }
  assert (kmem w1s !! a = Some command) as Hblk.
  { unfold w1s, w1, command_world. wnorm. apply lookup_insert_eq. }
  assert (Z.min count' (size new - 0) = Z.of_nat (length command)) as Hmin.
  { unfold new. cbn [size]. lia. }
  exists (read_world w1s rb old command 0 (Z.of_nat (length command))). split.
  - assert (aesd_circular_buffer_find_entry_offset_for_fpos
              (circular_buffer (dev w1s)) (size_t (f_pos w1s))
            = Some (in_offs (circular_buffer (dev w)), 0)) as Hres'.
    { unfold w1s at 2. unfold set_f_pos. cbn [f_pos]. by rewrite size_t_small by lia. }
    pose proof (aesd_read_entry env' rb count' old (in_offs (circular_buffer (dev w))) 0
                  new a command w1s Hwf1s Hi' Hf' ltac:(lia) Hres' Hentry eq_refl Hblk Hu
                  ltac:(lia)) as Hread.
    by rewrite Hmin in Hread.
  - unfold read_world. wnorm. rewrite lookup_insert_eq. cbn.
    rewrite Nat2Z.id. change (Z.to_nat 0) with 0%nat.
    rewrite drop_0, (take_ge command) by done.
    by rewrite take_app_length.
Qed.

Lemma written_command_reads_back_witness :
  call (aesd_write (sample_env 12 13) (Some 2%positive) 7) sample_pending
  = Some (7, sample_one)
  ∧ ∃ w2,
      call (aesd_read (sample_env 1 2) (Some 4%positive) 16) (set_f_pos 0 sample_one)
      = Some (12, w2)
      ∧ take 12 <$> umem w2 !! 4%positive
        = Some ["h"; "e"; "l"; "l"; "o"; " "; "w"; "o"; "r"; "l"; "d"; x0a]%byte.
Proof.
  apply (written_command_reads_back (sample_env 12 13) 2%positive
           [" "; "w"; "o"; "r"; "l"; "d"; x0a]%byte 7 13%positive 6 x0a
           (sample_env 1 2) 4%positive (replicate 16 x00) 16 sample_pending).
  - apply reachable_wf, sample_pending_reachable.
  - apply sample_env_ok; by vm_compute.
  - split_and!; [done..|cbn; lia|by eexists|by vm_compute|done|by vm_compute].
  - reflexivity.
  - reflexivity.
  - reflexivity.
  - by vm_compute.
  - by vm_compute.
  - by vm_compute.
Defined.

(** ** What a read can return *)

Lemma aesd_read_errno env buf count w r w' :
  wf w → 0 ≤ count →
  call (aesd_read env buf count) w = Some (r, w') → r < 0 →
  r = - EFAULT ∨ r = - ERESTARTSYS.
Proof.
  intros Hwf Hc Hcall Hr. pose proof (wf_unlocked _ Hwf) as Hl.
  destruct buf as [ub|]; [|rewrite aesd_read_null in Hcall; left; congruence].
  destruct (lock_intr env) eqn:Hi.
  { rewrite aesd_read_interrupted in Hcall by done. right. congruence. }
  destruct (aesd_circular_buffer_find_entry_offset_for_fpos
              (circular_buffer (dev w)) (size_t (f_pos w))) as [[i o]|] eqn:Hfind;
    cycle 1.
  { rewrite aesd_read_eof in Hcall by done. injection Hcall as <- _. lia. }
  destruct (resolved_f_pos _ _ _ Hwf Hfind) as (Hsz & Hpos).
  pose proof Hfind as Hfind'. rewrite Hsz in Hfind'.
  destruct (find_entry_Some _ _ _ _ Hwf (proj1 Hpos) Hfind')
    as (_ & e & a & blk & He & Ho & Ha & Hblk & Hlen & Hmax).
  set (n := Z.min count (size e - o)).
  assert (ufault env = true
          ∨ (∀ old, umem w !! ub = Some old → Z.of_nat (length old) < n)
          ∨ (ufault env = false
             ∧ ∃ old, umem w !! ub = Some old ∧ n ≤ Z.of_nat (length old)))
    as [Hfail|[Hfail|(Hf & old & Hu & Hroom)]].
  { destruct (ufault env); [by left|right].
    destruct (umem w !! ub) as [old|]; [|by left].
    destruct (decide (n ≤ Z.of_nat (length old))).
    - right. split; [done|]. by exists old.
    - left. intros ? [= <-]. lia. }
  3:{ erewrite aesd_read_entry in Hcall by eauto. injection Hcall as <- _. lia. }
  all: destruct (decide (n = 0)) as [Hn|Hn];
    [ assert (count = 0) as -> by lia
    | destruct (aesd_read_transfer_fault env ub count i o e a blk w) as [u Hcall'];
      [done|done|done|done|done|done|done|done|by eauto|];
      left; congruence ].
  - erewrite aesd_read_nothing in Hcall by eauto. injection Hcall as <- _. lia.
  - erewrite aesd_read_nothing in Hcall; [injection Hcall as <- _; lia|eauto..].
    right. destruct (umem w !! ub) as [old|] eqn:Hu; [|done].
    specialize (Hfail _ eq_refl). lia.
Qed.

(** X11: from a well-formed world every read returns: no access outside a
    block, and the mutex is released.  It returns -EFAULT or -ERESTARTSYS
    with the device, the kernel heap and the file position as they were, or
    a count between 0 and [count]; a read that returns bytes leaves the file
    position within the log, and the world it leaves is well formed
    again. *)
Theorem read_outcome env buf count w :
  wf w → 0 ≤ count →
  ∃ r w', call (aesd_read env buf count) w = Some (r, w')
    ∧ wf w' ∧ lock (dev w') = false
    ∧ (r = - EFAULT ∨ r = - ERESTARTSYS ∨ 0 ≤ r ≤ count)
    ∧ (r < 0 → dev w' = dev w ∧ kmem w' = kmem w ∧ f_pos w' = f_pos w)
    ∧ (0 < r → f_pos w' = f_pos w + r
               ∧ f_pos w' ≤ log_length (circular_buffer (dev w))).
Proof.
  intros Hwf Hc.
  destruct (aesd_read_cases env buf count w Hwf Hc) as (r & w' & Hcall & Hcases).
  pose proof (aesd_read_wf _ _ _ _ _ _ Hwf Hc Hcall) as Hwf'.
  exists r, w'. split; [done|]. split; [done|]. split; [apply Hwf'|].
  destruct Hcases as [[Hr [u ->]]|(ub & old & i & o & e & a & blk & _ & _ & _ & _
                               & Hfind & He & Ha & Hblk & Hr & Hr0 & ->)].
  - split_and!; [|done|lia].
    destruct (decide (r < 0)) as [Hneg|]; [|right; right; lia].
    destruct (aesd_read_errno _ _ _ _ _ _ Hwf Hc Hcall Hneg); auto.
  - destruct (resolved_f_pos _ _ _ Hwf Hfind) as (Hsz & Hpos).
    pose proof Hfind as Hfind'. rewrite Hsz in Hfind'.
    destruct (find_entry_Some _ _ _ _ Hwf (proj1 Hpos) Hfind')
      as (_ & e' & a' & blk' & He' & Ho & Ha' & Hblk' & Hlen & Hmax).
    assert (e' = e) as -> by congruence. assert (a' = a) as -> by congruence.
    assert (blk' = blk) as -> by congruence.
    destruct (find_entry_from_drop (kmem w) _ _ 0 (f_pos w) i o e
                ltac:(intros j ej; by apply entry_bytes_length)
                ltac:(lia) Hfind' He) as (rest & Hrest).
    pose proof (length_log_stream _ Hwf) as Hstream.
    unfold log_stream, live_entries in Hstream.
    apply (f_equal length) in Hrest.
    rewrite length_app, !length_drop in Hrest.
    assert (length (entry_bytes (kmem w) e) = length blk) as Hb.
    { unfold entry_bytes. by rewrite Ha, Hblk. }
    split_and!; [right; right; lia|lia|].
    intros _. unfold read_world. wnorm. split; [done|]. lia.
Qed.

Lemma read_outcome_witness :
  ∃ r w', call (aesd_read (faulting_env 20) (Some 4%positive) 16) sample_full
          = Some (r, w')
    ∧ (r = - EFAULT ∨ r = - ERESTARTSYS ∨ 0 ≤ r ≤ 16)
    ∧ (r < 0 → dev w' = dev sample_full ∧ kmem w' = kmem sample_full
               ∧ f_pos w' = f_pos sample_full).
Proof.
  destruct (read_outcome (faulting_env 20) (Some 4%positive) 16 sample_full)
    as (r & w' & Hcall & _ & _ & Hr & Hsame & _).
  - apply reachable_wf, sample_full_reachable.
  - lia.
  - exists r, w'. split_and!; [exact Hcall|exact Hr|exact Hsame].
Defined.

(** ** A command written in two chunks *)

Lemma aesd_write_pending_world env ub data count a w :
  wf w → kenv_ok env w → write_granted env w ub data count a →
  list_find (λ b, b = newline) (take (Z.to_nat count) data) = None →
  call (aesd_write env (Some ub) count) w
  = Some (count, pending_world w a (take (Z.to_nat count) data))
  ∧ wf (pending_world w a (take (Z.to_nat count) data))
  ∧ Z.of_nat (length (take (Z.to_nat count) data)) = count.
Proof.
  intros Hwf Hok Hg Hfind.
  destruct (write_granted_fresh _ _ _ _ _ _ Hok Hg) as (a1 & Ha1 & Hn1 & Hn2 & Hne).
  destruct Hg as (Hi & Hf & Hu & Hc & _ & Hcm & Ha2 & Hsz).
  unfold accepted in Hsz. rewrite Hfind in Hsz.
  assert (Z.of_nat (length (take (Z.to_nat count) data)) = count) as Hlen.
  { rewrite length_take. lia. }
  rewrite Hlen in Hsz. split_and!; [|apply wf_pending_world|]; try done.
  - unfold pending_world. rewrite Hlen. by eapply aesd_write_pending.
  - intros Hnil. rewrite Hnil in Hlen. cbn in Hlen. lia.
  - lia.
Qed.

(** X12: a command that arrives in two writes is assembled: after a chunk
    without newline (accepted whole) and a chunk whose first newline is at
    offset [d] (accepted up to it), the log's newest entry holds the bytes
    that were pending before, the first chunk, and the second chunk up to
    and including the newline; its size is their length, the pending buffer
    is empty, and the block that held the pending bytes in between is
    freed. *)
Theorem command_assembled_from_two_chunks
    env1 ub1 data1 count1 a1 env2 ub2 data2 count2 a2 d x w :
  let chunk1 := take (Z.to_nat count1) data1 in
  let chunk2 := take (Z.to_nat count2) data2 in
  let w1 := pending_world w a1 chunk1 in
  let w2 := command_world w1 a2 chunk2 d in
  let command := pending w ++ chunk1 ++ take (S d) chunk2 in
  wf w → kenv_ok env1 w → write_granted env1 w ub1 data1 count1 a1 →
  list_find (λ b, b = newline) chunk1 = None →
  kenv_ok env2 w1 → write_granted env2 w1 ub2 data2 count2 a2 →
  list_find (λ b, b = newline) chunk2 = Some (d, x) →
  call (aesd_write env1 (Some ub1) count1) w = Some (count1, w1)
  ∧ call (aesd_write env2 (Some ub2) count2) w1 = Some (Z.of_nat d + 1, w2)
  ∧ last (live_entries (circular_buffer (dev w2)))
    = Some {| buffptr := Some a2; size := Z.of_nat (length command) |}
  ∧ kmem w2 !! a2 = Some command
  ∧ pending w2 = []
  ∧ kmem w2 !! a1 = None.
Proof.
  intros chunk1 chunk2 w1 w2 command Hwf Hok1 Hg1 Hfind1 Hok2 Hg2 Hfind2.
  destruct (aesd_write_pending_world _ _ _ _ _ _ Hwf Hok1 Hg1 Hfind1)
    as (Hcall1 & Hwf1 & Hlen1).
  pose proof (aesd_write_command_world _ _ _ _ _ _ _ _ Hwf1 Hok2 Hg2 Hfind2) as Hcall2.
  destruct (write_granted_fresh _ _ _ _ _ _ Hok2 Hg2) as (b1 & _ & _ & Hn2 & _).
  assert (pending w1 = pending w ++ chunk1) as Hpend1.
  { unfold pending at 1, w1, pending_world. wnorm. by rewrite lookup_insert_eq. }
  assert (kmem w1 !! a1 = Some (pending w ++ chunk1)) as Hk1.
  { unfold w1, pending_world. wnorm. apply lookup_insert_eq. }
  assert (a2 ≠ a1) as Hne by congruence.
  pose proof (list_find_bound _ _ _ Hfind2) as Hd.
  pose proof (length_pending _ Hwf) as Hpend.
  split_and!; [done|done| | | |].
  - unfold w2, command_world. wnorm.
    rewrite live_entries_add_entry by apply Hwf1. rewrite last_snoc.
    do 2 f_equal. unfold w1 at 1, pending_world. wnorm. unfold command.
    rewrite !length_app, length_take. fold chunk1. lia.
  - unfold w2, command_world. wnorm. rewrite lookup_insert_eq, Hpend1.
    unfold command. by rewrite app_assoc.
  - unfold pending, w2, command_world. by wnorm.
  - unfold w2, command_world. wnorm. rewrite lookup_insert_ne by done.
    assert (release (partial_write_buffer (dev w1)) (kmem w1) !! a1 = None) as Hrel.
    { unfold w1 at 1, pending_world. wnorm. cbn [release]. apply lookup_delete_eq. }
    destruct (evicted _ ≫= buffptr) as [p|]; [|done].
    cbn [release]. rewrite lookup_delete. by case_decide.
Qed.

Lemma command_assembled_from_two_chunks_witness :
  call (aesd_write (sample_env 10 11) (Some 1%positive) 5) sample_start
  = Some (5, sample_pending)
  ∧ call (aesd_write (sample_env 12 13) (Some 2%positive) 7) sample_pending
    = Some (7, sample_one)
  ∧ kmem sample_one !! 13%positive
    = Some ["h"; "e"; "l"; "l"; "o"; " "; "w"; "o"; "r"; "l"; "d"; x0a]%byte.
Proof.
  destruct (command_assembled_from_two_chunks
              (sample_env 10 11) 1%positive ["h"; "e"; "l"; "l"; "o"]%byte 5 11%positive
              (sample_env 12 13) 2%positive [" "; "w"; "o"; "r"; "l"; "d"; x0a]%byte 7
              13%positive 6 x0a sample_start)
    as (Hcall1 & Hcall2 & _ & Hk & _).
  - apply reachable_wf, sample_start_reachable.
  - by apply sample_env_ok.
  - split_and!; [done..|cbn; lia|by eexists|by vm_compute|done|by vm_compute].
  - reflexivity.
  - apply sample_env_ok; by vm_compute.
  - split_and!; [done..|cbn; lia|by eexists|by vm_compute|done|by vm_compute].
  - reflexivity.
  - split_and!; [exact Hcall1|exact Hcall2|exact Hk].
Defined.
